(** * Jeopardy board: a shallow embedding of [jeopardy.js]

    The script keeps two module-level variables ([gameCategories] and
    [teamScores]), talks to a remote service through [axios], samples with
    lodash's [_.sampleSize] and drives the page through jQuery.  Below, the
    two variables, the part of the page the script reads and writes, the
    console and the pending asynchronous continuation form one [State]
    record; every function of the script is a function on that record. *)

From stdpp Require Import gmap strings list fin_maps pretty sorting.

Open Scope Z_scope.

(** ** JavaScript values used by the script *)

(** A JavaScript number as far as the script needs it: the scores are
    integers obtained from [0] by adding and subtracting [100], or [NaN]
    when arithmetic meets [undefined].  Integers are kept exact (a double is
    exact up to [2^53]). *)
Inductive JsNum : Type :=
| Num (z : Z)
| NaN.

Global Instance JsNum_eq_dec : EqDecision JsNum.
Proof. solve_decision. Defined.

(** [ToNumber] of a property read: a missing property reads [undefined],
    whose numeric value is [NaN]. *)
Definition to_number (v : option JsNum) : JsNum :=
  match v with
  | Some n => n
  | None => NaN
  end.

Definition js_add (a b : JsNum) : JsNum :=
  match a, b with
  | Num x, Num y => Num (x + y)
  | _, _ => NaN
  end.

Definition js_sub (a b : JsNum) : JsNum :=
  match a, b with
  | Num x, Num y => Num (x - y)
  | _, _ => NaN
  end.

(** [Math.max(a, b)]: [NaN] as soon as one argument is [NaN]. *)
Definition Math_max (a b : JsNum) : JsNum :=
  match a, b with
  | Num x, Num y => Num (Z.max x y)
  | _, _ => NaN
  end.

(** Number to string, as a template literal or [.text(n)] prints it. *)
Definition js_show (n : JsNum) : string :=
  match n with
  | Num z => pretty z
  | NaN => "NaN"
  end.

(** What jQuery's [.data(key)] hands back: a string, a number when the
    attribute is a numeral, or [undefined] when the attribute is absent. *)
Inductive JsData : Type :=
| DUndefined
| DString (s : string)
| DNumber (z : Z).

Global Instance JsData_eq_dec : EqDecision JsData.
Proof. solve_decision. Defined.

(** ** Constants *)

Definition CATEGORY_TOTAL : nat := 6.
Definition CLUES_PER_CATEGORY : nat := 5.

(** ** lodash's [_.sampleSize]

    lodash is an external library.  [_.sampleSize(array, n)] copies the
    array, clamps [n] to [0 .. length] and runs the first [n] rounds of a
    Fisher-Yates shuffle ([shuffleSelf]): round [index] swaps position
    [index] with a position drawn by [baseRandom(index, lastIndex)], and the
    copy is then truncated to [n] elements.  The random source is an oracle
    [rng]: [rng k] is the raw draw of round [k]. *)
Section Lodash.
Context {A : Type}.

(** [baseRandom(lower, upper)]: [lower + floor(random * (upper - lower + 1))]. *)
Definition baseRandom (lower upper raw : nat) : nat :=
  (lower + raw `mod` (upper - lower + 1))%nat.

Definition baseClamp (n lower upper : nat) : nat :=
  (lower `max` (n `min` upper))%nat.

(** [value = array[rand]; array[rand] = array[index]; array[index] = value].
    Both positions are inside the array whenever the loop runs; outside,
    the model leaves the array alone. *)
Definition swap (array : list A) (index rand : nat) : list A :=
  match array !! index, array !! rand with
  | Some x, Some value => <[index := value]> (<[rand := x]> array)
  | _, _ => array
  end.

(** The [while (++index < size)] loop, [todo] rounds left. *)
Fixpoint shuffle_rounds (todo index : nat) (rng : nat → nat)
    (array : list A) : list A :=
  match todo with
  | O => array
  | S todo' =>
      let rand := baseRandom index (length array - 1) (rng index) in
      shuffle_rounds todo' (S index) rng (swap array index rand)
  end.

Definition shuffleSelf (array : list A) (size : nat) (rng : nat → nat) : list A :=
  take size (shuffle_rounds size 0 rng array).

Definition sampleSize (collection : list A) (n : nat) (rng : nat → nat) : list A :=
  shuffleSelf collection (baseClamp n 0 (length collection)) rng.
End Lodash.

(** ** [Array.prototype.sort] and [Object.keys] *)

(** [SortCompare]: the number the comparison function returns, with [NaN]
    read as [+0]. *)
Definition sort_compare {K} (comparefn : K → K → JsNum) (a b : K) : Z :=
  match comparefn a b with
  | Num z => z
  | NaN => 0
  end.

(** ECMAScript leaves the algorithm of [Array.prototype.sort] to the engine
    and requires the result to be stable; with a consistent comparison
    function every stable sort returns the same array.  The model is the
    stable insertion sort (what V8 runs on an array this short). *)
Fixpoint sort_insert {K} (comparefn : K → K → JsNum) (x : K) (l : list K) : list K :=
  match l with
  | [] => [x]
  | y :: l' =>
      if decide (sort_compare comparefn x y ≤ 0)
      then x :: y :: l'
      else y :: sort_insert comparefn x l'
  end.

Definition Array_sort {K} (comparefn : K → K → JsNum) (l : list K) : list K :=
  foldr (sort_insert comparefn) [] l.

(** [Object.keys(o)] of an object whose keys are integer indices: the keys
    in ascending numeric order. *)
Definition Object_keys (o : gmap nat JsNum) : list nat :=
  merge_sort (≤)%nat (elements (dom o)).

(** ** Data model *)

(** The [showing] field of a clue: [null], ["question"] or ["answer"]. *)
Inductive Showing : Type :=
| ShowingNull
| ShowingQuestion
| ShowingAnswer.

Global Instance Showing_eq_dec : EqDecision Showing.
Proof. solve_decision. Defined.

Record Clue : Type := mkClue {
  question : string;
  answer : string;
  showing : Showing
}.

Record Category : Type := mkCategory {
  title : string;
  clues : list Clue
}.

(** What the remote service answers.  Of an entry of [GET categories] only
    [id] is read; of a clue of [GET category] only [question] and [answer]. *)
Record ApiCategoryInfo : Type := mkInfo {
  info_id : nat;
  info_title : string
}.

Record ApiClue : Type := mkApiClue {
  clue_id : nat;
  clue_question : string;
  clue_answer : string
}.

Record ApiCategory : Type := mkApiCategory {
  data_title : string;
  data_clues : list ApiClue
}.

Inductive Error : Type :=
| NetworkError (message : string)
| TypeError (message : string).

Inductive Response (A : Type) : Type :=
| Ok (data : A)
| Failed (error : Error).
Arguments Ok {A} data.
Arguments Failed {A} error.

(** One line of the browser console. *)
Inductive LogEntry : Type :=
| ConsoleError (label : string) (error : Error)
| Uncaught (error : Error).

(** ** The page *)

(** The four primary panels; [true] is visible. *)
Record Panels : Type := mkPanels {
  start_screen : bool;
  loading_screen : bool;
  game_board_screen : bool;
  rankings_div : bool
}.

(** A row of [#jeopardy tbody]: the value cell and one clue cell per
    category.  The clue cell of category [c] in row [i] carries the id
    [cell-c-i]. *)
Record Row : Type := mkRow {
  row_value : string;
  row_cells : list string
}.

Record Dom : Type := mkDom {
  panels : Panels;
  (* #winning-team-heading, #leaderboard, #complete-game-btn: shown together *)
  game_elements : bool;
  thead : list (list string);
  tbody : list Row;
  (* the text of [#team-N .score], for the teams the page has *)
  score_text : gmap nat string;
  rankings : list string;
  winning_team_heading : string;
  final_rankings : list string
}.

(** What the script is waiting for between two events. *)
Inductive Pending : Type :=
| Idle
| Timer
| AwaitIds
| AwaitData (id : nat) (rest : list nat).

Record State : Type := mkState {
  gameCategories : list (option Category);
  teamScores : gmap nat JsNum;
  page : Dom;
  console : list LogEntry;
  pending : Pending
}.

Definition with_gameCategories (f : list (option Category) → list (option Category))
    (s : State) : State :=
  mkState (f (gameCategories s)) (teamScores s) (page s) (console s) (pending s).

Definition with_teamScores (f : gmap nat JsNum → gmap nat JsNum) (s : State) : State :=
  mkState (gameCategories s) (f (teamScores s)) (page s) (console s) (pending s).

Definition with_page (f : Dom → Dom) (s : State) : State :=
  mkState (gameCategories s) (teamScores s) (f (page s)) (console s) (pending s).

Definition with_console (f : list LogEntry → list LogEntry) (s : State) : State :=
  mkState (gameCategories s) (teamScores s) (page s) (f (console s)) (pending s).

Definition with_pending (p : Pending) (s : State) : State :=
  mkState (gameCategories s) (teamScores s) (page s) (console s) p.

Definition with_panels (f : Panels → Panels) (d : Dom) : Dom :=
  mkDom (f (panels d)) (game_elements d) (thead d) (tbody d) (score_text d)
    (rankings d) (winning_team_heading d) (final_rankings d).

Definition with_game_elements (b : bool) (d : Dom) : Dom :=
  mkDom (panels d) b (thead d) (tbody d) (score_text d)
    (rankings d) (winning_team_heading d) (final_rankings d).

Definition with_table (h : list (list string)) (b : list Row) (d : Dom) : Dom :=
  mkDom (panels d) (game_elements d) h b (score_text d)
    (rankings d) (winning_team_heading d) (final_rankings d).

Definition with_score_text (f : gmap nat string → gmap nat string) (d : Dom) : Dom :=
  mkDom (panels d) (game_elements d) (thead d) (tbody d) (f (score_text d))
    (rankings d) (winning_team_heading d) (final_rankings d).

Definition with_leaderboard (r : list string) (w : string) (d : Dom) : Dom :=
  mkDom (panels d) (game_elements d) (thead d) (tbody d) (score_text d)
    r w (final_rankings d).

Definition with_final_rankings (r : list string) (d : Dom) : Dom :=
  mkDom (panels d) (game_elements d) (thead d) (tbody d) (score_text d)
    (rankings d) (winning_team_heading d) r.

Definition show_start (b : bool) (p : Panels) : Panels :=
  mkPanels b (loading_screen p) (game_board_screen p) (rankings_div p).
Definition show_loading (b : bool) (p : Panels) : Panels :=
  mkPanels (start_screen p) b (game_board_screen p) (rankings_div p).
Definition show_board (b : bool) (p : Panels) : Panels :=
  mkPanels (start_screen p) (loading_screen p) b (rankings_div p).
Definition show_rankings (b : bool) (p : Panels) : Panels :=
  mkPanels (start_screen p) (loading_screen p) (game_board_screen p) b.

(** ** Computations that may throw *)

Inductive Outcome (A : Type) : Type :=
| Return (a : A)
| Throw (e : Error).
Arguments Return {A} a.
Arguments Throw {A} e.

Definition M (A : Type) : Type := State → Outcome A * State.

Definition ret {A} (a : A) : M A := λ s, (Return a, s).

Definition bind {A B} (m : M A) (k : A → M B) : M B :=
  λ s, match m s with
       | (Return a, s') => k a s'
       | (Throw e, s') => (Throw e, s')
       end.

Definition throw {A} (e : Error) : M A := λ s, (Throw e, s).

(** [try { body } catch (error) { handler }] *)
Definition try_catch {A} (body : M A) (handler : Error → M A) : M A :=
  λ s, match body s with
       | (Return a, s') => (Return a, s')
       | (Throw e, s') => handler e s'
       end.

Definition modify (f : State → State) : M unit := λ s, (Return tt, f s).

Declare Scope js_scope.
Delimit Scope js_scope with js.
Notation "'let*' x := m 'in' k" := (bind m (λ x, k))
  (at level 10, x name, m at level 100, k at level 200) : js_scope.
Notation "m >> k" := (bind m (λ _, k))
  (at level 61, left associativity) : js_scope.

(** An event handler, a timer callback or an unawaited promise that throws:
    the engine reports the error on the console and goes on. *)
Definition dispatch (m : M unit) (s : State) : State :=
  match m s with
  | (Return _, s') => s'
  | (Throw e, s') => with_console (λ c, c ++ [Uncaught e]) s'
  end.

Definition console_error (label : string) (error : Error) : M unit :=
  modify (with_console (λ c, c ++ [ConsoleError label error])).

(** [await axios.get(...)]: the response the service gave, or the rejection
    thrown at the [await]. *)
Definition axios_get {A} (response : Response A) : M A :=
  match response with
  | Ok data => ret data
  | Failed error => throw error
  end.

Local Open Scope js_scope.

(** ** The functions of the script *)

Definition initial_scores : gmap nat JsNum :=
  {[ 1%nat := Num 0; 2%nat := Num 0; 3%nat := Num 0 ]}.

(** [fetchCategoryIds]: the response of [GET categories?count=100] and the
    random source are the inputs; the result is the array returned, or
    [None] for [undefined]. *)
Definition fetchCategoryIds (response : Response (list ApiCategoryInfo))
    (rng : nat → nat) : M (option (list nat)) :=
  try_catch
    (let* data := axios_get response in
     let ids := info_id <$> data in
     ret (Some (sampleSize ids CATEGORY_TOTAL rng)))
    (λ error,
       console_error "Failed to fetch category IDs:" error >> ret None).

Definition format_clue (clue : ApiClue) : Clue :=
  {| question := clue_question clue;
     answer := clue_answer clue;
     showing := ShowingNull |}.

(** [fetchCategoryData(catId)], with the response of [GET category?id=catId]. *)
Definition fetchCategoryData (catId : nat) (response : Response ApiCategory)
    (rng : nat → nat) : M (option Category) :=
  try_catch
    (let* data := axios_get response in
     let clues := format_clue <$> sampleSize (data_clues data) CLUES_PER_CATEGORY rng in
     ret (Some {| title := data_title data; clues := clues |}))
    (λ error,
       console_error "Failed to fetch category data:" error >> ret None).

(** The header row: [cat.title] of every entry, which throws on an entry
    that is [undefined]. *)
Definition header_titles (cats : list (option Category)) : option (list string) :=
  mapM (λ cat : option Category, title <$> cat) cats.

Definition board_row (cats : list (option Category)) (i : nat) : Row :=
  {| row_value := pretty ((i + 1) * 100)%nat;
     row_cells := (λ _, "?") <$> cats |}.

(** [createGameBoard]: the table is emptied first; the header row is built
    and appended, then the [CLUES_PER_CATEGORY] rows. *)
Definition createGameBoard : M unit :=
  modify (with_page (with_table [] [])) >>
  λ s,
    match header_titles (gameCategories s) with
    | None =>
        throw (TypeError "Cannot read properties of undefined (reading 'title')") s
    | Some titles =>
        modify (with_page (with_table [ "Value" :: titles ]
                  (board_row (gameCategories s) <$> seq 0 CLUES_PER_CATEGORY))) s
    end.

Definition set_showing (v : Showing) (clue : Clue) : Clue :=
  {| question := question clue; answer := answer clue; showing := v |}.

Definition set_clue (catIndex clueIndex : nat) (clue : Clue)
    (cats : list (option Category)) : list (option Category) :=
  match cats !! catIndex with
  | Some (Some cat) =>
      <[catIndex := Some {| title := title cat;
                            clues := <[clueIndex := clue]> (clues cat) |}]> cats
  | _ => cats
  end.

(** [$cell.text(t)] on the cell with id [cell-catIndex-clueIndex]. *)
Definition set_cell_text (catIndex clueIndex : nat) (t : string) (d : Dom) : Dom :=
  with_table (thead d)
    (alter (λ r, {| row_value := row_value r;
                    row_cells := <[catIndex := t]> (row_cells r) |})
       clueIndex (tbody d)) d.

Definition cell_text (d : Dom) (catIndex clueIndex : nat) : option string :=
  tbody d !! clueIndex ≫= λ r, row_cells r !! catIndex.

Definition clue_at (s : State) (catIndex clueIndex : nat) : option Clue :=
  gameCategories s !! catIndex ≫= λ cat, cat ≫= λ c, clues c !! clueIndex.

(** [handleCellClick], for a click on the cell [cell-catIndex-clueIndex]. *)
Definition handleCellClick (catIndex clueIndex : nat) : M unit :=
  λ s,
    match gameCategories s !! catIndex with
    | Some (Some cat) =>
        match clues cat !! clueIndex with
        | Some clue =>
            match showing clue with
            | ShowingNull =>
                (modify (with_page (set_cell_text catIndex clueIndex (question clue))) >>
                 modify (with_gameCategories
                           (set_clue catIndex clueIndex (set_showing ShowingQuestion clue)))) s
            | ShowingQuestion =>
                (modify (with_page (set_cell_text catIndex clueIndex (answer clue))) >>
                 modify (with_gameCategories
                           (set_clue catIndex clueIndex (set_showing ShowingAnswer clue)))) s
            | ShowingAnswer => ret tt s
            end
        | None =>
            throw (TypeError "Cannot read properties of undefined (reading 'showing')") s
        end
    | _ =>
        throw (TypeError "Cannot read properties of undefined (reading 'clues')") s
    end.

(** The comparison function of both sorts: [teamScores[b] - teamScores[a]]. *)
Definition by_score (scores : gmap nat JsNum) (a b : nat) : JsNum :=
  js_sub (to_number (scores !! b)) (to_number (scores !! a)).

Definition sortedTeams (scores : gmap nat JsNum) : list nat :=
  Array_sort (by_score scores) (Object_keys scores).

(** [${teamScores[team]}] inside a template literal. *)
Definition show_score (scores : gmap nat JsNum) (team : nat) : string :=
  match scores !! team with
  | Some n => js_show n
  | None => "undefined"
  end.

(** One line of the live leaderboard and of the final rankings. *)
Definition leaderboard_line (scores : gmap nat JsNum) (team : nat) : string :=
  "Team " +:+ pretty team +:+ ": " +:+ show_score scores team.

Definition final_line (scores : gmap nat JsNum) (team : nat) : string :=
  "Team " +:+ pretty team +:+ ": " +:+ show_score scores team +:+ " points".

Definition winning_label (sorted : list nat) : string :=
  "Winning Team: Team " +:+
  match head sorted with
  | Some team => pretty team
  | None => "undefined"
  end.

Definition updateLeaderboard (s : State) : State :=
  let sorted := sortedTeams (teamScores s) in
  with_page (with_leaderboard
    (leaderboard_line (teamScores s) <$> sorted)
    (winning_label sorted)) s.

(** [adjustScore], for a click on a button with [data-team = team] and
    [data-adjust = adjust]. *)
Definition adjustScore (team : nat) (adjust : JsData) (s : State) : State :=
  let s1 :=
    if decide (adjust = DString "add") then
      with_teamScores
        (λ ts, <[team := js_add (to_number (ts !! team)) (Num 100)]> ts) s
    else if decide (adjust = DString "subtract") then
      with_teamScores
        (λ ts, <[team := Math_max (Num 0) (js_sub (to_number (ts !! team)) (Num 100))]> ts) s
    else s in
  (* [.text(undefined)] reads instead of writing; a missing element is skipped *)
  let s2 :=
    match teamScores s1 !! team with
    | Some n => with_page (with_score_text (alter (λ _, js_show n) team)) s1
    | None => s1
    end in
  updateLeaderboard s2.

Definition showLoading (s : State) : State :=
  with_page (with_panels (show_loading true)) (with_page (with_table [] []) s).

Definition removeLoading (s : State) : State :=
  with_page (with_panels (show_loading false)) s.

(** [setupAndStartGame] is an async function: it runs up to its first
    [await], and resumes when the awaited response arrives.  The three
    definitions below are its segments. *)

(** Up to [await fetchCategoryIds()]. *)
Definition setup_begin (s : State) : State :=
  let s1 := showLoading s in
  let s2 := with_teamScores (λ _, initial_scores) s1 in
  let s3 := with_page (with_score_text (fmap (λ _, "0"))) s2 in
  let s4 := updateLeaderboard s3 in
  with_pending AwaitIds s4.

(** From [createGameBoard()] to the end. *)
Definition setup_finish (s : State) : State :=
  let s1 := dispatch createGameBoard s in
  let s2 := with_page (with_game_elements true) s1 in
  let s3 := with_page (with_panels (show_board true)) s2 in
  with_pending Idle (removeLoading s3).

(** The [for (const id of categoryIds)] loop, at the head of an iteration:
    either the next [fetchCategoryData(id)] is awaited or the loop is over. *)
Definition setup_loop (ids : list nat) (s : State) : State :=
  match ids with
  | [] => setup_finish s
  | id :: rest => with_pending (AwaitData id rest) s
  end.

(** Resumption with the outcome of [fetchCategoryIds]; iterating over
    [undefined] throws. *)
Definition setup_ids (response : Response (list ApiCategoryInfo)) (rng : nat → nat)
    (s : State) : State :=
  dispatch
    (let* categoryIds := fetchCategoryIds response rng in
     modify (with_gameCategories (λ _, [])) >>
     match categoryIds with
     | Some ids => modify (setup_loop ids)
     | None =>
         modify (with_pending Idle) >>
         throw (TypeError "categoryIds is not iterable")
     end) s.

(** Resumption with the outcome of [fetchCategoryData(id)]: the result is
    pushed, be it [undefined], and the loop goes on. *)
Definition setup_data (id : nat) (rest : list nat) (response : Response ApiCategory)
    (rng : nat → nat) (s : State) : State :=
  dispatch
    (let* data := fetchCategoryData id response rng in
     modify (with_gameCategories (λ cats, cats ++ [data])) >>
     modify (setup_loop rest)) s.

Definition completeGame (s : State) : State :=
  let s1 := with_page (with_panels (show_board false)) s in
  let sorted := sortedTeams (teamScores s1) in
  let s2 := with_page (with_final_rankings
    (final_line (teamScores s1) <$> sorted)) s1 in
  with_page (with_panels (show_rankings true)) s2.

Definition returnToMain (s : State) : State :=
  with_page (with_panels (show_start true))
    (with_page (with_panels (show_rankings false)) s).

(** The [$(document).ready] handler, on the page as loaded. *)
Definition ready (s : State) : State :=
  with_page (with_panels (λ p,
    show_rankings false (show_board false (show_loading false (show_start true p))))) s.

Definition start_click (s : State) : State :=
  with_pending Timer
    (with_page (with_panels (show_loading true))
       (with_page (with_panels (show_start false)) s)).

Definition restart_click (s : State) : State :=
  with_pending Timer
    (with_page (with_panels (show_loading true))
       (with_page (with_panels (show_board false)) s)).

(** The timer callback of both buttons. *)
Definition timer_fires (s : State) : State :=
  setup_begin (with_page (with_panels (show_loading false)) s).

(** ** Events *)

(** What can happen between two runs of the script: a click, the 5 second
    timer, or a response of the remote service (with the random draws the
    sampling of that response makes). *)
Inductive Event : Type :=
| ClickStart
| ClickRestart
| ClickComplete
| ClickBack
| ClickAdjust (team : nat) (adjust : JsData)
| ClickCell (catIndex clueIndex : nat)
| TimerFires
| IdsResponse (response : Response (list ApiCategoryInfo)) (rng : nat → nat)
| DataResponse (response : Response ApiCategory) (rng : nat → nat).

(** Modelled from the spec: the page markup (index.html) is missing, so where
    each button lives is taken from the transition table of the screen
    controller: the start action exists on the Start panel, restart and
    complete on the Board panel, back on the FinalRankings panel; there is
    one pair of score buttons for each of the three teams; a clue cell can be
    clicked while the board is visible and the cell is in the table.  A
    timer or a response arrives only when the script waits for it. *)
Definition enabled (s : State) (e : Event) : bool :=
  match e with
  | ClickStart => start_screen (panels (page s))
  | ClickRestart | ClickComplete => game_board_screen (panels (page s))
  | ClickBack => rankings_div (panels (page s))
  | ClickAdjust team _ => bool_decide (team ∈ [1; 2; 3]%nat)
  | ClickCell catIndex clueIndex =>
      game_board_screen (panels (page s)) &&
      bool_decide (is_Some (cell_text (page s) catIndex clueIndex))
  | TimerFires =>
      match pending s with Timer => true | _ => false end
  | IdsResponse _ _ =>
      match pending s with AwaitIds => true | _ => false end
  | DataResponse _ _ =>
      match pending s with AwaitData _ _ => true | _ => false end
  end.

Definition handle (e : Event) (s : State) : State :=
  match e with
  | ClickStart => start_click s
  | ClickRestart => restart_click s
  | ClickComplete => completeGame s
  | ClickBack => returnToMain s
  | ClickAdjust team adjust => adjustScore team adjust s
  | ClickCell catIndex clueIndex => dispatch (handleCellClick catIndex clueIndex) s
  | TimerFires => timer_fires s
  | IdsResponse response rng => setup_ids response rng s
  | DataResponse response rng =>
      match pending s with
      | AwaitData id rest => setup_data id rest response rng s
      | _ => s
      end
  end.

(** The script once loaded into the page [html]. *)
Definition page_load (html : Dom) : State :=
  ready {| gameCategories := []; teamScores := initial_scores;
           page := html; console := []; pending := Idle |}.

Inductive Reachable : State → Prop :=
| Reachable_load (html : Dom) : Reachable (page_load html)
| Reachable_step (s : State) (e : Event) :
    Reachable s → enabled s e = true → Reachable (handle e s).

Definition run (events : list Event) (s : State) : State :=
  foldl (λ s e, handle e s) s events.

Definition is_response (e : Event) : bool :=
  match e with
  | IdsResponse _ _ | DataResponse _ _ => true
  | _ => false
  end.

(** The states a run goes through, one in front of each event. *)
Fixpoint scanl_states (events : list Event) (s : State) : list State :=
  match events with
  | [] => []
  | e :: events' => s :: scanl_states events' (handle e s)
  end.

(** [setupAndStartGame] run to its end with no other event in between:
    [categories] answers [GET categories], [category id] answers
    [GET category?id=id].  At most [CATEGORY_TOTAL] ids are iterated. *)
Fixpoint setup_resume (category : nat → Response ApiCategory * (nat → nat))
    (fuel : nat) (s : State) : State :=
  match fuel with
  | O => s
  | S fuel' =>
      match pending s with
      | AwaitData id rest =>
          setup_resume category fuel'
            (setup_data id rest (category id).1 (category id).2 s)
      | _ => s
      end
  end.

Definition setupAndStartGame (categories : Response (list ApiCategoryInfo) * (nat → nat))
    (category : nat → Response ApiCategory * (nat → nat)) (s : State) : State :=
  setup_resume category CATEGORY_TOTAL
    (setup_ids categories.1 categories.2 (setup_begin s)).

(** ** Views used in the statements *)

(** The three reveal states are the three values of [showing]. *)
Definition next_showing (v : Showing) : Showing :=
  match v with
  | ShowingNull => ShowingQuestion
  | ShowingQuestion => ShowingAnswer
  | ShowingAnswer => ShowingAnswer
  end.

(** The text a cell shows for a clue in a given reveal state. *)
Definition mirrored_text (clue : Clue) : string :=
  match showing clue with
  | ShowingNull => "?"
  | ShowingQuestion => question clue
  | ShowingAnswer => answer clue
  end.

Inductive Panel : Type :=
| StartPanel
| LoadingPanel
| BoardPanel
| FinalRankingsPanel.

Definition visible_panels (p : Panels) : list Panel :=
  (if start_screen p then [StartPanel] else []) ++
  (if loading_screen p then [LoadingPanel] else []) ++
  (if game_board_screen p then [BoardPanel] else []) ++
  (if rankings_div p then [FinalRankingsPanel] else []).

(** A score that is a non-negative integer. *)
Definition nonneg_score (n : JsNum) : Prop :=
  match n with
  | Num z => 0 ≤ z
  | NaN => False
  end.

(** No score is [NaN]. *)
Definition all_numeric (scores : gmap nat JsNum) : Prop :=
  map_Forall (λ _ n, n ≠ NaN) scores.

(** [a] is ranked before [b]: a higher score, or the same score and a
    smaller identifier. *)
Definition ranks_before (scores : gmap nat JsNum) (a b : nat) : Prop :=
  match to_number (scores !! a), to_number (scores !! b) with
  | Num x, Num y => y < x ∨ (x = y ∧ (a < b)%nat)
  | _, _ => False
  end.

(** What [fetchCategoryData] returns for a response. *)
Definition fetched_category (response : Response ApiCategory) (rng : nat → nat) :
    option Category :=
  match response with
  | Ok data =>
      Some {| title := data_title data;
              clues := format_clue <$> sampleSize (data_clues data) CLUES_PER_CATEGORY rng |}
  | Failed _ => None
  end.

(** The console after a fetch: one more line when the response is an error. *)
Definition fetch_log {A} (label : string) (response : Response A) (s : State) : State :=
  match response with
  | Ok _ => s
  | Failed error => with_console (λ c, c ++ [ConsoleError label error]) s
  end.

(** A whole game start ([restart = false]) or restart: the click, the timer
    callback ([#loading-screen] hidden, then [setupAndStartGame()]) and the
    setup run to its end. *)
Definition new_game (restart : bool)
    (categories : Response (list ApiCategoryInfo) * (nat → nat))
    (category : nat → Response ApiCategory * (nat → nat)) (s : State) : State :=
  setupAndStartGame categories category
    (with_page (with_panels (show_loading false))
       (handle (if restart then ClickRestart else ClickStart) s)).

(** The categories a setup fetches: those of the sampled identifiers, in the
    order drawn; none when the identifiers could not be fetched. *)
Definition fetched_game (categories : Response (list ApiCategoryInfo) * (nat → nat))
    (category : nat → Response ApiCategory * (nat → nat)) : list (option Category) :=
  match categories.1 with
  | Ok pool =>
      (λ id, fetched_category (category id).1 (category id).2)
        <$> sampleSize (info_id <$> pool) CATEGORY_TOTAL categories.2
  | Failed _ => []
  end.

(** Exactly one primary panel is visible, and it is the loading panel while
    a timer or a response is awaited. *)
Definition panel_inv (s : State) : Prop :=
  match pending s with
  | Idle => ∃ p, visible_panels (panels (page s)) = [p]
  | _ => visible_panels (panels (page s)) = [LoadingPanel]
  end.

(** The score mapping has the three teams, each with a non-negative
    integer score. *)
Definition scores_inv (s : State) : Prop :=
  dom (teamScores s) = list_to_set [1; 2; 3]%nat ∧
  map_Forall (λ _ n, nonneg_score n) (teamScores s).

(** The state with the console wiped: all of it that the page can show. *)
Definition forget_console (s : State) : State :=
  with_console (λ _, []) s.

(** Every clue of the game is still hidden. *)
Definition fresh (s : State) : Prop :=
  ∀ catIndex clueIndex clue,
    clue_at s catIndex clueIndex = Some clue → showing clue = ShowingNull.

(** Every cell of the table that stands for a clue shows the text of the
    clue's reveal state; while the setup awaits a response, the table is
    empty and, once categories are being fetched, every clue is hidden. *)
Definition board_inv (s : State) : Prop :=
  (∀ catIndex clueIndex clue txt,
     clue_at s catIndex clueIndex = Some clue →
     cell_text (page s) catIndex clueIndex = Some txt →
     txt = mirrored_text clue) ∧
  match pending s with
  | AwaitIds => tbody (page s) = []
  | AwaitData _ _ => tbody (page s) = [] ∧ fresh s
  | _ => True
  end.

(** The change of score a [data-adjust] value stands for. *)
Definition delta_of (adjust : JsData) : Z :=
  if decide (adjust = DString "add") then 100
  else if decide (adjust = DString "subtract") then -100
  else 0.

Definition example_scores : gmap nat JsNum :=
  {[ 1%nat := Num 300; 2%nat := Num 300; 3%nat := Num 100 ]}.

(** A sample page and remote service for the examples. *)
Definition sample_page : Dom :=
  {| panels := mkPanels true true true true;
     game_elements := false;
     thead := []; tbody := [];
     score_text := {[ 1%nat := "0"; 2%nat := "0"; 3%nat := "0" ]};
     rankings := []; winning_team_heading := ""; final_rankings := [] |}.

Definition sample_pool (n : nat) : list ApiCategoryInfo :=
  (λ i, mkInfo i ("category " +:+ pretty i)) <$> seq 0 n.

Definition sample_category (nclues : nat) (id : nat) : ApiCategory :=
  {| data_title := "category " +:+ pretty id;
     data_clues := (λ i, mkApiClue i ("q" +:+ pretty i) ("a" +:+ pretty i)) <$> seq 0 nclues |}.

Definition sample_rng (k : nat) : nat := (7 * k + 3)%nat.

Definition sample_game : list Event :=
  [ClickStart; TimerFires; IdsResponse (Ok (sample_pool 2)) sample_rng;
   DataResponse (Ok (sample_category 6 0)) sample_rng;
   DataResponse (Ok (sample_category 5 1)) sample_rng].

(** The positions of [collection] that [_.sampleSize] picks: the sample of
    the array of indices under the same draws. *)
Definition sample_positions {A} (collection : list A) (n : nat) (rng : nat → nat) : list nat :=
  sampleSize (seq 0 (length collection)) n rng.

(** ** Views used in the further properties *)

(** A game whose second category has three clues only, and a game whose
    first category could not be fetched. *)
Definition short_game : list Event :=
  [ClickStart; TimerFires; IdsResponse (Ok (sample_pool 2)) sample_rng;
   DataResponse (Ok (sample_category 6 0)) sample_rng;
   DataResponse (Ok (sample_category 3 1)) sample_rng].

Definition broken_game : list Event :=
  [ClickStart; TimerFires; IdsResponse (Ok (sample_pool 2)) sample_rng;
   DataResponse (Failed (NetworkError "timeout")) sample_rng;
   DataResponse (Ok (sample_category 5 1)) sample_rng].

(** Every event of a run is enabled when its turn comes. *)
Definition run_enabled (events : list Event) (s : State) : bool :=
  forallb id (zip_with enabled (scanl_states events s) events).

Definition is_ids_response (e : Event) : bool :=
  match e with
  | IdsResponse _ _ => true
  | _ => false
  end.

(** How far a clue is revealed. *)
Definition showing_rank (v : Showing) : nat :=
  match v with
  | ShowingNull => 0
  | ShowingQuestion => 1
  | ShowingAnswer => 2
  end.

(** The category [fetchCategoryData(id)] returns when the service answers
    [data id] and the sampling draws [draws id]. *)
Definition served (data : nat → ApiCategory) (draws : nat → nat → nat) (id : nat) : Category :=
  {| title := data_title (data id);
     clues := format_clue <$> sampleSize (data_clues (data id)) CLUES_PER_CATEGORY (draws id) |}.

(** Every score is a non-negative multiple of 100. *)
Definition hundreds (n : JsNum) : Prop :=
  ∃ k : Z, 0 ≤ k ∧ n = Num (100 * k).

Definition awaiting (s : State) : bool :=
  match pending s with
  | AwaitIds | AwaitData _ _ => true
  | _ => false
  end.

(** The leaderboard, the winning label and the score of every team read
    what [teamScores] holds. *)
Definition synced (s : State) : Prop :=
  rankings (page s) = leaderboard_line (teamScores s) <$> sortedTeams (teamScores s) ∧
  winning_team_heading (page s) = winning_label (sortedTeams (teamScores s)) ∧
  (∀ team n txt,
     score_text (page s) !! team = Some txt → teamScores s !! team = Some n →
     txt = js_show n).

(** The scoreboard is in sync once a setup has begun, and as long as the
    board or the final rankings are shown. *)
Definition display_inv (s : State) : Prop :=
  match pending s with
  | AwaitIds | AwaitData _ _ => synced s
  | _ =>
      game_board_screen (panels (page s)) || rankings_div (panels (page s)) = true →
      synced s
  end.

(** The setup died on the loading panel. *)
Definition stuck (s : State) : Prop :=
  pending s = Idle ∧
  visible_panels (panels (page s)) = [LoadingPanel] ∧
  gameCategories s = [].

(** No category has more clues than the board has rows, and, unless the
    table is empty, every clue has its cell. *)
Definition clues_bounded (s : State) : Prop :=
  ∀ catIndex cat, gameCategories s !! catIndex = Some (Some cat) →
    (length (clues cat) ≤ CLUES_PER_CATEGORY)%nat.

Definition covered (s : State) : Prop :=
  tbody (page s) ≠ [] →
  ∀ catIndex clueIndex clue,
    clue_at s catIndex clueIndex = Some clue →
    is_Some (cell_text (page s) catIndex clueIndex).

(** Proof steps on the four panel flags. *)
Ltac split_state s :=
  destruct s as [?cats ?scores [[?b ?b ?b ?b] ?ge ?th ?tb ?st ?rk ?wh ?fr] ?con ?pend].

Ltac solve_panels :=
  simpl in *;
  repeat match goal with
         | p : Pending |- _ => destruct p; simpl in *
         | b : bool |- _ => destruct b; simpl in *
         end;
  repeat match goal with H : ∃ _, _ |- _ => destruct H end;
  try discriminate; try done; try (eexists; reflexivity).

(** * Properties *)

(** ** Sampling *)

Section LodashFacts.
Context {A B : Type}.
Implicit Types (l : list A) (f : A → B).

Lemma swap_Permutation l i j : swap l i j ≡ₚ l.
Proof.
  unfold swap.
  destruct (l !! i) as [x|] eqn:Hi; [|done].
  destruct (l !! j) as [y|] eqn:Hj; [|done].
  by apply Permutation_insert_swap.
Qed.

Lemma length_swap l i j : length (swap l i j) = length l.
Proof. apply Permutation_length, swap_Permutation. Qed.

Lemma swap_fmap f l i j : swap (f <$> l) i j = f <$> swap l i j.
Proof.
  unfold swap. rewrite !list_lookup_fmap.
  destruct (l !! i) as [x|]; [|done].
  destruct (l !! j) as [y|]; [|done].
  simpl. by rewrite !list_fmap_insert.
Qed.

Lemma shuffle_rounds_Permutation todo index rng l :
  shuffle_rounds todo index rng l ≡ₚ l.
Proof.
  revert index l. induction todo as [|todo IH]; intros index l; simpl; [done|].
  by rewrite IH, swap_Permutation.
Qed.

Lemma shuffle_rounds_fmap f todo index rng l :
  shuffle_rounds todo index rng (f <$> l) = f <$> shuffle_rounds todo index rng l.
Proof.
  revert index l. induction todo as [|todo IH]; intros index l; simpl; [done|].
  by rewrite length_fmap, swap_fmap, IH.
Qed.

Lemma sampleSize_fmap f l n rng :
  sampleSize (f <$> l) n rng = f <$> sampleSize l n rng.
Proof.
  unfold sampleSize, shuffleSelf.
  by rewrite length_fmap, shuffle_rounds_fmap, fmap_take.
Qed.

Lemma length_sampleSize l n rng :
  length (sampleSize l n rng) = (n `min` length l)%nat.
Proof.
  unfold sampleSize, shuffleSelf, baseClamp.
  rewrite length_take, (Permutation_length (shuffle_rounds_Permutation _ _ _ _)).
  lia.
Qed.

Lemma sampleSize_submseteq l n rng : sampleSize l n rng ⊆+ l.
Proof.
  unfold sampleSize, shuffleSelf.
  trans (shuffle_rounds (baseClamp n 0 (length l)) 0 rng l).
  - apply sublist_submseteq, sublist_take.
  - by rewrite shuffle_rounds_Permutation.
Qed.

Lemma sampleSize_elem_of l n rng x : x ∈ sampleSize l n rng → x ∈ l.
Proof. intros Hx. by eapply elem_of_submseteq, sampleSize_submseteq. Qed.

Lemma sampleSize_NoDup l n rng : NoDup l → NoDup (sampleSize l n rng).
Proof.
  intros Hl. unfold sampleSize, shuffleSelf.
  eapply sublist_NoDup; [|apply sublist_take].
  by rewrite shuffle_rounds_Permutation.
Qed.
End LodashFacts.

Lemma lookup_seq_fmap {A} (l : list A) :
  (λ i, l !! i) <$> seq 0 (length l) = Some <$> l.
Proof.
  apply list_eq; intros i. rewrite !list_lookup_fmap.
  destruct (decide (i < length l)%nat) as [Hi|Hi].
  - rewrite lookup_seq_lt by done. simpl.
    by destruct (lookup_lt_is_Some_2 l i Hi) as [x ->].
  - rewrite lookup_seq_ge, lookup_ge_None_2 by lia. done.
Qed.

(** Sampling is drawing at pairwise distinct positions. *)
Lemma sampleSize_positions {A} (l : list A) n rng :
  NoDup (sample_positions l n rng) ∧
  Forall (λ i, (i < length l)%nat) (sample_positions l n rng) ∧
  (λ i, l !! i) <$> sample_positions l n rng = Some <$> sampleSize l n rng.
Proof.
  unfold sample_positions. split_and!.
  - apply sampleSize_NoDup, NoDup_seq.
  - apply Forall_forall. intros i Hi%sampleSize_elem_of.
    apply elem_of_seq in Hi. lia.
  - by rewrite <-!sampleSize_fmap, lookup_seq_fmap.
Qed.

(** ** The two fetch operations *)

(** C5. A successful [fetchCategoryIds] on a pool of at least 6 candidate
    categories (the service is asked for 100) returns exactly 6 identifiers,
    each an identifier of the pool, read at 6 pairwise distinct positions of
    the pool (drawn without replacement); hence they are pairwise distinct
    as soon as the identifiers of the pool are.  The call changes nothing
    else. *)
Theorem fetchCategoryIds_sample (pool : list ApiCategoryInfo) (rng : nat → nat) (s : State) :
  (CATEGORY_TOTAL ≤ length pool)%nat →
  ∃ ids : list nat,
    fetchCategoryIds (Ok pool) rng s = (Return (Some ids), s) ∧
    length ids = CATEGORY_TOTAL ∧
    (∀ id, id ∈ ids → ∃ category, category ∈ pool ∧ info_id category = id) ∧
    (∃ positions : list nat,
       NoDup positions ∧
       (λ i, info_id <$> pool !! i) <$> positions = Some <$> ids) ∧
    (NoDup (info_id <$> pool) → NoDup ids).
Proof.
  intros Hlen. eexists. split; [reflexivity|]. split_and!.
  - rewrite length_sampleSize, length_fmap. lia.
  - intros id Hid%sampleSize_elem_of.
    apply list_elem_of_fmap in Hid as (category & -> & Hin). eauto.
  - exists (sample_positions (info_id <$> pool) CATEGORY_TOTAL rng).
    destruct (sampleSize_positions (info_id <$> pool) CATEGORY_TOTAL rng)
      as (Hnd & _ & Heq).
    split; [done|]. rewrite <-Heq.
    apply list_fmap_ext. intros _ i _. by rewrite list_lookup_fmap.
  - apply sampleSize_NoDup.
Qed.

Lemma fetchCategoryIds_sample_witness :
  ∃ ids : list nat,
    fetchCategoryIds (Ok (sample_pool 100)) sample_rng (page_load sample_page)
      = (Return (Some ids), page_load sample_page) ∧
    length ids = CATEGORY_TOTAL ∧
    (∀ id, id ∈ ids → ∃ category, category ∈ sample_pool 100 ∧ info_id category = id) ∧
    (∃ positions : list nat,
       NoDup positions ∧
       (λ i, info_id <$> sample_pool 100 !! i) <$> positions = Some <$> ids) ∧
    (NoDup (info_id <$> sample_pool 100) → NoDup ids).
Proof.
  apply (fetchCategoryIds_sample (sample_pool 100) sample_rng (page_load sample_page)).
  vm_compute. lia.
Defined.

(** C6, as the claim states it, fails: on a category that has only two
    clues the call succeeds and no returned value has 5 clues. *)
Lemma fetchCategoryData_short_category :
  ¬ ∃ cat : Category,
      fetchCategoryData 0 (Ok (sample_category 2 0)) sample_rng (page_load sample_page)
        = (Return (Some cat), page_load sample_page) ∧
      length (clues cat) = CLUES_PER_CATEGORY.
Proof.
  intros (cat & Hcall & Hlen).
  vm_compute in Hcall. injection Hcall as <-. vm_compute in Hlen. discriminate.
Qed.

(** C6, amended. A successful [fetchCategoryData] returns the title of the
    category and [min 5 n] clues, [n] being the size of the category's clue
    set (so exactly 5 when the category has at least 5 clues); the clues are
    read at pairwise distinct positions of the clue set (drawn without
    replacement) and every one of them has [showing = null]. *)
Theorem fetchCategoryData_sample (catId : nat) (data : ApiCategory)
    (rng : nat → nat) (s : State) :
  ∃ cat : Category,
    fetchCategoryData catId (Ok data) rng s = (Return (Some cat), s) ∧
    title cat = data_title data ∧
    length (clues cat) = (CLUES_PER_CATEGORY `min` length (data_clues data))%nat ∧
    ((CLUES_PER_CATEGORY ≤ length (data_clues data))%nat →
       length (clues cat) = CLUES_PER_CATEGORY) ∧
    (∃ positions : list nat,
       NoDup positions ∧
       (λ i, format_clue <$> data_clues data !! i) <$> positions = Some <$> clues cat) ∧
    Forall (λ clue, showing clue = ShowingNull) (clues cat).
Proof.
  eexists. split; [reflexivity|]. simpl.
  assert (Hlen : length (format_clue <$> sampleSize (data_clues data) CLUES_PER_CATEGORY rng)
                 = (CLUES_PER_CATEGORY `min` length (data_clues data))%nat)
    by (by rewrite length_fmap, length_sampleSize).
  split_and!; [done|done|lia| |].
  - exists (sample_positions (data_clues data) CLUES_PER_CATEGORY rng).
    destruct (sampleSize_positions (data_clues data) CLUES_PER_CATEGORY rng)
      as (Hnd & _ & Heq).
    split; [done|].
    rewrite <-list_fmap_compose.
    change (Some ∘ format_clue) with (fmap (M:=option) format_clue ∘ Some).
    rewrite (list_fmap_compose Some), <-Heq, <-list_fmap_compose. done.
  - apply Forall_fmap, Forall_true. done.
Qed.

(** ** Sorting the teams *)

Lemma elem_of_Object_keys (o : gmap nat JsNum) (k : nat) :
  k ∈ Object_keys o ↔ is_Some (o !! k).
Proof.
  unfold Object_keys.
  by rewrite merge_sort_Permutation, elem_of_elements, elem_of_dom.
Qed.

Lemma StronglySorted_le_NoDup (l : list nat) :
  StronglySorted (≤)%nat l → NoDup l → StronglySorted (<)%nat l.
Proof.
  induction 1 as [|x l Hl IH Hx]; intros Hnd; constructor.
  - apply IH. by apply NoDup_cons in Hnd as [_ ?].
  - apply NoDup_cons in Hnd as [Hnotin _].
    apply Forall_forall. intros y Hy.
    rewrite Forall_forall in Hx. specialize (Hx y Hy).
    assert (x ≠ y) by (intros ->; done). lia.
Qed.

Lemma Object_keys_ascending (o : gmap nat JsNum) :
  StronglySorted (<)%nat (Object_keys o).
Proof.
  apply StronglySorted_le_NoDup.
  - apply StronglySorted_merge_sort; apply _.
  - unfold Object_keys. rewrite merge_sort_Permutation. apply NoDup_elements.
Qed.

Lemma sort_insert_Permutation {K} (comparefn : K → K → JsNum) (x : K) (l : list K) :
  sort_insert comparefn x l ≡ₚ x :: l.
Proof.
  induction l as [|y l IH]; simpl; [done|].
  case_decide; [done|]. by rewrite IH, Permutation_swap.
Qed.

Lemma Array_sort_Permutation {K} (comparefn : K → K → JsNum) (l : list K) :
  Array_sort comparefn l ≡ₚ l.
Proof.
  induction l as [|x l IH]; simpl; [done|].
  by rewrite sort_insert_Permutation, IH.
Qed.

Lemma ranks_before_Num (scores : gmap nat JsNum) (a b : nat) (x y : Z) :
  scores !! a = Some (Num x) → scores !! b = Some (Num y) →
  ranks_before scores a b ↔ y < x ∨ (x = y ∧ (a < b)%nat).
Proof. intros Ha Hb. unfold ranks_before. by rewrite Ha, Hb. Qed.

Lemma sort_compare_by_score (scores : gmap nat JsNum) (a b : nat) (x y : Z) :
  scores !! a = Some (Num x) → scores !! b = Some (Num y) →
  sort_compare (by_score scores) a b = y - x.
Proof. intros Ha Hb. unfold sort_compare, by_score. by rewrite Ha, Hb. Qed.

(** Inserting a team whose identifier is below all the identifiers already
    sorted keeps the ranking order: the team goes in front of the first team
    that does not beat it. *)
Lemma sort_insert_ranked (scores : gmap nat JsNum) (x : nat) (r : list nat) :
  (∀ y, y ∈ x :: r → ∃ z, scores !! y = Some (Num z)) →
  Forall (λ y, (x < y)%nat) r →
  StronglySorted (ranks_before scores) r →
  StronglySorted (ranks_before scores) (sort_insert (by_score scores) x r).
Proof.
  intros Hnum. destruct (Hnum x) as [zx Hx]; [by left|].
  induction r as [|y r IH]; intros Hlt Hsorted; simpl.
  { repeat constructor. }
  destruct (Hnum y) as [zy Hy]; [set_solver|].
  apply Forall_cons in Hlt as [Hxy Hlt].
  apply StronglySorted_cons in Hsorted as [Hyr Hsorted].
  rewrite (sort_compare_by_score scores x y zx zy) by done.
  case_decide as Hcmp.
  - constructor; [by repeat constructor|].
    constructor.
    + apply (ranks_before_Num scores x y zx zy); [done..|]. lia.
    + apply Forall_forall. intros y' Hy'.
      destruct (Hnum y') as [zy' Hzy']; [set_solver|].
      rewrite Forall_forall in Hyr, Hlt.
      pose proof (Hlt y' Hy') as Hxy'. pose proof (Hyr y' Hy') as Hyy'.
      apply (ranks_before_Num scores y y' zy zy') in Hyy'; [|done..].
      apply (ranks_before_Num scores x y' zx zy'); [done..|]. lia.
  - constructor.
    + apply IH; [|done..]. intros y' Hin. apply Hnum.
      apply elem_of_cons in Hin as [->|Hin]; [by left|by do 2 right].
    + rewrite sort_insert_Permutation. constructor; [|done].
      apply (ranks_before_Num scores y x zy zx); [done..|]. lia.
Qed.

Lemma Array_sort_ranked (scores : gmap nat JsNum) (l : list nat) :
  (∀ y, y ∈ l → ∃ z, scores !! y = Some (Num z)) →
  StronglySorted (<)%nat l →
  StronglySorted (ranks_before scores) (Array_sort (by_score scores) l).
Proof.
  intros Hnum Hl. induction Hl as [|x l Hl IH Hx]; simpl; [constructor|].
  apply sort_insert_ranked.
  - intros y Hy. apply Hnum. revert Hy.
    by rewrite !elem_of_cons, Array_sort_Permutation.
  - by rewrite Array_sort_Permutation.
  - apply IH. intros y Hy. apply Hnum. by right.
Qed.

Lemma sortedTeams_Permutation (scores : gmap nat JsNum) :
  sortedTeams scores ≡ₚ Object_keys scores.
Proof. apply Array_sort_Permutation. Qed.

Lemma sortedTeams_ranked (scores : gmap nat JsNum) :
  all_numeric scores →
  StronglySorted (ranks_before scores) (sortedTeams scores).
Proof.
  intros Hnum. apply Array_sort_ranked; [|apply Object_keys_ascending].
  intros y [n Hn]%elem_of_Object_keys.
  specialize (Hnum y n Hn). destruct n as [z|]; [by exists z|done].
Qed.

(** C3. The ranking lists exactly the team identifiers, a team with a
    higher score before a team with a lower one and, among teams with the
    same score, the smaller identifier first.  The live leaderboard prints
    that ranking and names its first team the winning team; the final
    rankings print the same ranking.  For the scores 300, 300, 100 the
    ranking is 1, 2, 3 and the winning team is team 1. *)
Theorem leaderboard_ranking (scores : gmap nat JsNum) :
  all_numeric scores →
  (∀ team, team ∈ sortedTeams scores ↔ is_Some (scores !! team)) ∧
  NoDup (sortedTeams scores) ∧
  StronglySorted (ranks_before scores) (sortedTeams scores) ∧
  (∀ s, teamScores s = scores →
     rankings (page (updateLeaderboard s)) = leaderboard_line scores <$> sortedTeams scores ∧
     winning_team_heading (page (updateLeaderboard s)) = winning_label (sortedTeams scores) ∧
     final_rankings (page (completeGame s)) = final_line scores <$> sortedTeams scores) ∧
  sortedTeams example_scores = [1; 2; 3]%nat ∧
  winning_label (sortedTeams example_scores) = "Winning Team: Team 1".
Proof.
  intros Hnum. split_and!.
  - intros team. by rewrite sortedTeams_Permutation, elem_of_Object_keys.
  - rewrite sortedTeams_Permutation. unfold Object_keys.
    rewrite merge_sort_Permutation. apply NoDup_elements.
  - by apply sortedTeams_ranked.
  - intros s <-. split_and!; reflexivity.
  - reflexivity.
  - reflexivity.
Qed.

Lemma leaderboard_ranking_witness :
  (∀ team, team ∈ sortedTeams example_scores ↔ is_Some (example_scores !! team)) ∧
  NoDup (sortedTeams example_scores) ∧
  StronglySorted (ranks_before example_scores) (sortedTeams example_scores) ∧
  (∀ s, teamScores s = example_scores →
     rankings (page (updateLeaderboard s))
       = leaderboard_line example_scores <$> sortedTeams example_scores ∧
     winning_team_heading (page (updateLeaderboard s))
       = winning_label (sortedTeams example_scores) ∧
     final_rankings (page (completeGame s))
       = final_line example_scores <$> sortedTeams example_scores) ∧
  sortedTeams example_scores = [1; 2; 3]%nat ∧
  winning_label (sortedTeams example_scores) = "Winning Team: Team 1".
Proof.
  apply (leaderboard_ranking example_scores).
  apply (bool_decide_unpack _). vm_compute. exact I.
Defined.

(** ** Adjusting a score *)

Lemma teamScores_updateLeaderboard (s : State) :
  teamScores (updateLeaderboard s) = teamScores s.
Proof. reflexivity. Qed.

Lemma teamScores_adjustScore (team : nat) (adjust : JsData) (s : State) :
  teamScores (adjustScore team adjust s) =
    if decide (adjust = DString "add") then
      <[team := js_add (to_number (teamScores s !! team)) (Num 100)]> (teamScores s)
    else if decide (adjust = DString "subtract") then
      <[team := Math_max (Num 0) (js_sub (to_number (teamScores s !! team)) (Num 100))]>
        (teamScores s)
    else teamScores s.
Proof.
  unfold adjustScore. rewrite teamScores_updateLeaderboard.
  repeat case_decide;
    match goal with |- context [match ?o with Some _ => _ | None => _ end] =>
      destruct o end; reflexivity.
Qed.

Lemma adjustScore_frame (team : nat) (adjust : JsData) (s : State) :
  gameCategories (adjustScore team adjust s) = gameCategories s ∧
  pending (adjustScore team adjust s) = pending s ∧
  console (adjustScore team adjust s) = console s ∧
  panels (page (adjustScore team adjust s)) = panels (page s) ∧
  thead (page (adjustScore team adjust s)) = thead (page s) ∧
  tbody (page (adjustScore team adjust s)) = tbody (page s).
Proof.
  unfold adjustScore.
  repeat case_decide;
    match goal with |- context [match ?o with Some _ => _ | None => _ end] =>
      destruct o end; done.
Qed.

(** Three increases of team 2 on a new game: 300 points, ranking 2, 1, 3. *)
Example three_increases :
  let s := run [ClickAdjust 2 (DString "add"); ClickAdjust 2 (DString "add");
                ClickAdjust 2 (DString "add")] (page_load sample_page) in
  teamScores s !! 2%nat = Some (Num 300) ∧
  sortedTeams (teamScores s) = [2; 1; 3]%nat ∧
  rankings (page s) = ["Team 2: 300"; "Team 1: 0"; "Team 3: 0"] ∧
  winning_team_heading (page s) = "Winning Team: Team 2" ∧
  score_text (page s) !! 2%nat = Some "300".
Proof. vm_compute. done. Qed.

(** C4, as the claim states it, fails: the operation takes the value of a
    [data-adjust] attribute, and no value passed to it moves a score from 0
    to [max 0 (0 + 50)]. *)
Lemma adjustScore_no_delta_50 :
  ¬ ∃ adjust : JsData,
      teamScores (adjustScore 1 adjust (page_load sample_page)) !! 1%nat
        = Some (Num (Z.max 0 (0 + 50))).
Proof.
  intros [adjust H]. rewrite teamScores_adjustScore in H.
  repeat case_decide; vm_compute in H; discriminate.
Qed.

(** C4, amended. [adjustScore] takes a team and a direction.  On a team whose
    score is a non-negative integer the new score is
    [max 0 (score + delta)], where [delta] is [100] for the direction
    ["add"], [-100] for ["subtract"] and [0] for any other value. *)
Theorem adjustScore_direction (team : nat) (adjust : JsData) (s : State) (z : Z) :
  teamScores s !! team = Some (Num z) →
  0 ≤ z →
  delta_of adjust ∈ [100; -100; 0] ∧
  teamScores (adjustScore team adjust s) !! team
    = Some (Num (Z.max 0 (z + delta_of adjust))).
Proof.
  intros Hz Hpos. rewrite teamScores_adjustScore. unfold delta_of.
  repeat case_decide.
  - split; [set_solver|]. rewrite lookup_insert_eq, Hz. simpl. do 2 f_equal. lia.
  - split; [set_solver|]. rewrite lookup_insert_eq, Hz. simpl. do 2 f_equal.
  - split; [set_solver|]. rewrite Hz. do 2 f_equal. lia.
Qed.

Lemma adjustScore_direction_witness :
  delta_of (DString "subtract") ∈ [100; -100; 0] ∧
  teamScores (adjustScore 2 (DString "subtract") (page_load sample_page)) !! 2%nat
    = Some (Num (Z.max 0 (0 + delta_of (DString "subtract")))).
Proof.
  apply (adjustScore_direction 2 (DString "subtract") (page_load sample_page) 0).
  - reflexivity.
  - lia.
Defined.

(** C10. A score adjustment writes at most the entry of the addressed team:
    the score of every other team, the category list and every clue are
    unchanged.  With a direction that is neither ["add"] nor ["subtract"]
    the whole score mapping is unchanged; the leaderboard is recomputed from
    the scores in every case. *)
Theorem adjustScore_frame_effect (team : nat) (adjust : JsData) (s : State) :
  (∀ other, other ≠ team →
     teamScores (adjustScore team adjust s) !! other = teamScores s !! other) ∧
  gameCategories (adjustScore team adjust s) = gameCategories s ∧
  (∀ catIndex clueIndex,
     clue_at (adjustScore team adjust s) catIndex clueIndex = clue_at s catIndex clueIndex) ∧
  (adjust ≠ DString "add" → adjust ≠ DString "subtract" →
     teamScores (adjustScore team adjust s) = teamScores s) ∧
  rankings (page (adjustScore team adjust s))
    = leaderboard_line (teamScores (adjustScore team adjust s))
        <$> sortedTeams (teamScores (adjustScore team adjust s)) ∧
  winning_team_heading (page (adjustScore team adjust s))
    = winning_label (sortedTeams (teamScores (adjustScore team adjust s))).
Proof.
  destruct (adjustScore_frame team adjust s) as (Hcats & _).
  split_and!.
  - intros other Hne. rewrite teamScores_adjustScore.
    repeat case_decide; by rewrite ?lookup_insert_ne.
  - done.
  - intros catIndex clueIndex. unfold clue_at. by rewrite Hcats.
  - intros Hadd Hsub. rewrite teamScores_adjustScore.
    by rewrite !decide_False.
  - reflexivity.
  - reflexivity.
Qed.

(** ** The segments of the game setup *)

Lemma setup_ids_Ok (pool : list ApiCategoryInfo) (rng : nat → nat) (s : State) :
  setup_ids (Ok pool) rng s =
    setup_loop (sampleSize (info_id <$> pool) CATEGORY_TOTAL rng)
      (with_gameCategories (λ _, []) s).
Proof. reflexivity. Qed.

Lemma setup_ids_Failed (error : Error) (rng : nat → nat) (s : State) :
  setup_ids (Failed error) rng s =
    with_console (λ c, c ++ [Uncaught (TypeError "categoryIds is not iterable")])
      (with_pending Idle
         (with_gameCategories (λ _, [])
            (fetch_log "Failed to fetch category IDs:" (Failed (A:=unit) error) s))).
Proof. reflexivity. Qed.

Lemma setup_data_eq (id : nat) (rest : list nat) (response : Response ApiCategory)
    (rng : nat → nat) (s : State) :
  setup_data id rest response rng s =
    setup_loop rest
      (with_gameCategories (λ cats, cats ++ [fetched_category response rng])
         (fetch_log "Failed to fetch category data:" response s)).
Proof. destruct response; reflexivity. Qed.

Lemma createGameBoard_frame (s : State) :
  gameCategories (dispatch createGameBoard s) = gameCategories s ∧
  teamScores (dispatch createGameBoard s) = teamScores s ∧
  pending (dispatch createGameBoard s) = pending s ∧
  panels (page (dispatch createGameBoard s)) = panels (page s).
Proof.
  unfold dispatch, createGameBoard, bind, modify, throw. simpl.
  destruct (header_titles (gameCategories s)); done.
Qed.

Lemma tbody_createGameBoard (s : State) :
  tbody (page (dispatch createGameBoard s)) =
    match header_titles (gameCategories s) with
    | Some _ => board_row (gameCategories s) <$> seq 0 CLUES_PER_CATEGORY
    | None => []
    end.
Proof.
  unfold dispatch, createGameBoard, bind, modify, throw. simpl.
  destruct (header_titles (gameCategories s)); done.
Qed.

Lemma setup_finish_frame (s : State) :
  gameCategories (setup_finish s) = gameCategories s ∧
  teamScores (setup_finish s) = teamScores s ∧
  pending (setup_finish s) = Idle ∧
  panels (page (setup_finish s)) = show_loading false (show_board true (panels (page s))) ∧
  tbody (page (setup_finish s)) = tbody (page (dispatch createGameBoard s)).
Proof.
  destruct (createGameBoard_frame s) as (Hc & Ht & Hp & Hpan).
  unfold setup_finish. simpl. by rewrite Hc, Ht, Hpan.
Qed.

Lemma handleCellClick_frame (catIndex clueIndex : nat) (s : State) :
  teamScores (dispatch (handleCellClick catIndex clueIndex) s) = teamScores s ∧
  pending (dispatch (handleCellClick catIndex clueIndex) s) = pending s ∧
  panels (page (dispatch (handleCellClick catIndex clueIndex) s)) = panels (page s).
Proof.
  unfold dispatch, handleCellClick, bind, modify, throw, ret.
  destruct (gameCategories s !! catIndex) as [[cat|]|]; [|done..].
  destruct (clues cat !! clueIndex) as [clue|]; [|done].
  by destruct (showing clue).
Qed.

(** ** A failed fetch *)

(** The script writes the console and never reads it: two states that
    differ in the console only are handled alike. *)
Lemma setup_finish_forget_console (s : State) :
  forget_console (setup_finish (forget_console s)) = forget_console (setup_finish s).
Proof.
  unfold setup_finish, dispatch, createGameBoard, bind, modify, throw. simpl.
  destruct (header_titles (gameCategories s)); reflexivity.
Qed.

Lemma setup_loop_forget_console (ids : list nat) (s : State) :
  forget_console (setup_loop ids (forget_console s)) = forget_console (setup_loop ids s).
Proof.
  destruct ids as [|id rest]; unfold setup_loop; [|reflexivity].
  apply setup_finish_forget_console.
Qed.

Lemma handle_forget_console (e : Event) (s : State) :
  forget_console (handle e (forget_console s)) = forget_console (handle e s).
Proof.
  destruct e; cbn [handle]; try reflexivity.
  - unfold adjustScore.
    repeat case_decide; simpl;
      match goal with |- context [match ?o with Some _ => _ | None => _ end] =>
        destruct o end; reflexivity.
  - unfold dispatch, handleCellClick, bind, modify, ret, throw. simpl.
    destruct (gameCategories s !! catIndex) as [[cat|]|]; [|reflexivity..].
    destruct (clues cat !! clueIndex) as [clue|]; [|reflexivity].
    destruct (showing clue); reflexivity.
  - destruct response as [pool|error]; [|reflexivity].
    rewrite !setup_ids_Ok.
    apply (setup_loop_forget_console _ (with_gameCategories (λ _, []) s)).
  - change (pending (forget_console s)) with (pending s).
    destruct (pending s) as [| | |id rest]; try reflexivity.
    rewrite !setup_data_eq.
    rewrite <-(setup_loop_forget_console rest
                 (with_gameCategories _ (fetch_log _ response s))).
    rewrite <-(setup_loop_forget_console rest
                 (with_gameCategories _ (fetch_log _ response (forget_console s)))).
    by destruct response.
Qed.

Lemma run_forget_console (events : list Event) (s : State) :
  forget_console (run events (forget_console s)) = forget_console (run events s).
Proof.
  revert s. induction events as [|e events IH]; intros s; [reflexivity|].
  cbn [run foldl]. fold (run events (handle e (forget_console s))).
  fold (run events (handle e s)).
  by rewrite <-IH, handle_forget_console, IH.
Qed.

Lemma failed_response_forget_console (s : State) (rng : nat → nat) (error error' : Error) :
  forget_console (handle (IdsResponse (Failed error) rng) s)
    = forget_console (handle (IdsResponse (Failed error') rng) s) ∧
  forget_console (handle (DataResponse (Failed error) rng) s)
    = forget_console (handle (DataResponse (Failed error') rng) s).
Proof.
  split; [reflexivity|]. cbn [handle].
  destruct (pending s) as [| | |id rest]; try reflexivity.
  rewrite !setup_data_eq.
  rewrite <-(setup_loop_forget_console rest
               (with_gameCategories _ (fetch_log _ (Failed error) s))).
  rewrite <-(setup_loop_forget_console rest
               (with_gameCategories _ (fetch_log _ (Failed error') s))).
  reflexivity.
Qed.

(** C7. A failed remote call does not leave either fetch function as an
    exception: the function returns normally with [undefined], the only
    effect being one [console.error] line.  The page never shows the error:
    the page is untouched when the identifiers could not be fetched, and
    whatever events follow the failed response, the page is the same as it
    would be had the error been any other. *)
Theorem fetch_failure_swallowed (error : Error) (rng : nat → nat) (catId : nat) (s : State) :
  fetchCategoryIds (Failed error) rng s
    = (Return None,
       with_console (λ c, c ++ [ConsoleError "Failed to fetch category IDs:" error]) s) ∧
  fetchCategoryData catId (Failed error) rng s
    = (Return None,
       with_console (λ c, c ++ [ConsoleError "Failed to fetch category data:" error]) s) ∧
  page (handle (IdsResponse (Failed error) rng) s) = page s ∧
  (∀ error' events,
     page (run events (handle (IdsResponse (Failed error) rng) s))
       = page (run events (handle (IdsResponse (Failed error') rng) s)) ∧
     page (run events (handle (DataResponse (Failed error) rng) s))
       = page (run events (handle (DataResponse (Failed error') rng) s))).
Proof.
  split_and!; try reflexivity.
  intros error' events.
  destruct (failed_response_forget_console s rng error error') as [Hids Hdata].
  split.
  - change (page (forget_console (run events (handle (IdsResponse (Failed error) rng) s)))
            = page (forget_console (run events (handle (IdsResponse (Failed error') rng) s)))).
    by rewrite <-(run_forget_console events (handle _ s)), Hids, run_forget_console.
  - change (page (forget_console (run events (handle (DataResponse (Failed error) rng) s)))
            = page (forget_console (run events (handle (DataResponse (Failed error') rng) s)))).
    by rewrite <-(run_forget_console events (handle _ s)), Hdata, run_forget_console.
Qed.

(** ** Reachable states *)

Lemma run_Reachable (events : list Event) (s : State) :
  Reachable s →
  forallb id (zip_with enabled (scanl_states events s) events) = true →
  Reachable (run events s).
Proof.
  revert s. induction events as [|e events IH]; intros s Hs Hen; simpl in *; [done|].
  apply andb_true_iff in Hen as [He Hen].
  apply IH; [|done]. by apply Reachable_step.
Qed.

Lemma sample_game_Reachable : Reachable (run sample_game (page_load sample_page)).
Proof.
  apply run_Reachable; [apply Reachable_load|]. vm_compute. reflexivity.
Defined.

(** ** One visible panel *)

Lemma panel_inv_setup_loop (ids : list nat) (s : State) :
  visible_panels (panels (page s)) = [LoadingPanel] →
  panel_inv (setup_loop ids s).
Proof.
  intros Hs. unfold panel_inv. destruct ids as [|id rest]; unfold setup_loop; [|done].
  destruct (setup_finish_frame s) as (_ & _ & -> & -> & _).
  exists BoardPanel. revert Hs. generalize (panels (page s)).
  intros [[] [] [] []]; simpl; done.
Qed.

Lemma panel_inv_step (s : State) (e : Event) :
  panel_inv s → enabled s e = true → panel_inv (handle e s).
Proof.
  unfold panel_inv. intros Hinv He. destruct e; cbn [handle enabled] in He |- *.
  - split_state s; solve_panels.
  - split_state s; solve_panels.
  - split_state s; solve_panels.
  - split_state s; solve_panels.
  - destruct (adjustScore_frame team adjust s) as (_ & -> & _ & -> & _). done.
  - destruct (handleCellClick_frame catIndex clueIndex s) as (_ & -> & ->). done.
  - split_state s; solve_panels.
  - destruct (pending s) eqn:Hp; try discriminate.
    destruct response as [pool|error].
    + rewrite setup_ids_Ok. by apply panel_inv_setup_loop.
    + rewrite setup_ids_Failed. simpl. eauto.
  - destruct (pending s) eqn:Hp; try discriminate.
    rewrite setup_data_eq. apply panel_inv_setup_loop.
    by destruct response.
Qed.

Lemma Reachable_panel_inv (s : State) : Reachable s → panel_inv s.
Proof.
  induction 1 as [html|s e _ IH He].
  - exists StartPanel. reflexivity.
  - by apply panel_inv_step.
Qed.

(** A start or restart click finds no timer armed and no response awaited:
    one [pending] slot is enough. *)
Lemma click_when_idle (s : State) (e : Event) :
  Reachable s → e ∈ [ClickStart; ClickRestart] → enabled s e = true →
  pending s = Idle.
Proof.
  intros Hs%Reachable_panel_inv He Hen. unfold panel_inv in Hs.
  repeat (apply elem_of_cons in He as [->|He]); [..|by apply elem_of_nil in He];
    cbn [enabled] in Hen; split_state s; solve_panels.
Qed.

(** The lifecycle scenario: Start, loading, board, final rankings, Start. *)
Example lifecycle_scenario :
  let s0 := page_load sample_page in
  let s1 := run [ClickStart] s0 in
  let s2 := run sample_game s0 in
  let s3 := run [ClickComplete] s2 in
  let s4 := run [ClickBack] s3 in
  visible_panels (panels (page s0)) = [StartPanel] ∧
  visible_panels (panels (page s1)) = [LoadingPanel] ∧
  visible_panels (panels (page s2)) = [BoardPanel] ∧
  visible_panels (panels (page s3)) = [FinalRankingsPanel] ∧
  visible_panels (panels (page s4)) = [StartPanel].
Proof. vm_compute. done. Qed.

(** C9. In every state the page can reach, exactly one primary panel is
    visible, and every transition leads to such a state again.  The panel is
    the one the lifecycle names: the start and restart actions and the end
    of the delay show the loading panel only; a response of the remote
    service leaves the loading panel alone or, when it ends the setup,
    replaces it by the board; the complete action shows the final rankings
    only and the back action the start panel only. *)
Theorem one_primary_panel (s : State) :
  Reachable s →
  (∃ p, visible_panels (panels (page s)) = [p]) ∧
  (∀ e, enabled s e = true →
     ∃ p, visible_panels (panels (page (handle e s))) = [p]) ∧
  (∀ e, e ∈ [ClickStart; ClickRestart; TimerFires] → enabled s e = true →
     visible_panels (panels (page (handle e s))) = [LoadingPanel]) ∧
  (∀ e, is_response e = true → enabled s e = true →
     visible_panels (panels (page (handle e s))) = [LoadingPanel] ∨
     visible_panels (panels (page (handle e s))) = [BoardPanel]) ∧
  (enabled s ClickComplete = true →
     visible_panels (panels (page (handle ClickComplete s))) = [FinalRankingsPanel]) ∧
  (enabled s ClickBack = true →
     visible_panels (panels (page (handle ClickBack s))) = [StartPanel]).
Proof.
  intros Hs%Reachable_panel_inv. split_and!.
  - unfold panel_inv in Hs. destruct (pending s); eauto.
  - intros e He. pose proof (panel_inv_step s e Hs He) as Hstep.
    unfold panel_inv in Hstep. destruct (pending (handle e s)); eauto.
  - unfold panel_inv in Hs. intros e He Hen.
    repeat (apply elem_of_cons in He as [->|He]); [..|by apply elem_of_nil in He];
      cbn [handle enabled] in *; split_state s; solve_panels.
  - intros [| | | | | | |response rng|response rng] Hr He; try discriminate;
      pose proof (panel_inv_step s _ Hs He) as Hstep;
      unfold panel_inv in Hstep, Hs; cbn [enabled] in He;
      destruct (pending s) eqn:Hp; try discriminate.
    + destruct response as [pool|error].
      * cbn [handle] in *. rewrite setup_ids_Ok in *.
        destruct (sampleSize _ _ _) as [|id rest]; unfold setup_loop in *; [|by left].
        right. destruct (setup_finish_frame (with_gameCategories (λ _, []) s))
          as (_ & _ & _ & -> & _).
        simpl. revert Hs. generalize (panels (page s)).
        intros [[] [] [] []]; simpl; done.
      * left. done.
    + cbn [handle] in *. rewrite Hp in *. rewrite setup_data_eq in *.
      destruct rest as [|id' rest']; unfold setup_loop in *.
      * right. match goal with |- context [setup_finish ?t] =>
          destruct (setup_finish_frame t) as (_ & _ & _ & -> & _) end.
        destruct response; simpl; revert Hs; generalize (panels (page s));
          intros [[] [] [] []]; simpl; done.
      * left. by destruct response.
  - unfold panel_inv in Hs. cbn [handle enabled]. intros He. split_state s; solve_panels.
  - unfold panel_inv in Hs. cbn [handle enabled]. intros He. split_state s; solve_panels.
Qed.

Lemma one_primary_panel_witness :
  let s := run sample_game (page_load sample_page) in
  (∃ p, visible_panels (panels (page s)) = [p]) ∧
  (∀ e, enabled s e = true →
     ∃ p, visible_panels (panels (page (handle e s))) = [p]) ∧
  (∀ e, e ∈ [ClickStart; ClickRestart; TimerFires] → enabled s e = true →
     visible_panels (panels (page (handle e s))) = [LoadingPanel]) ∧
  (∀ e, is_response e = true → enabled s e = true →
     visible_panels (panels (page (handle e s))) = [LoadingPanel] ∨
     visible_panels (panels (page (handle e s))) = [BoardPanel]) ∧
  (enabled s ClickComplete = true →
     visible_panels (panels (page (handle ClickComplete s))) = [FinalRankingsPanel]) ∧
  (enabled s ClickBack = true →
     visible_panels (panels (page (handle ClickBack s))) = [StartPanel]).
Proof.
  apply (one_primary_panel (run sample_game (page_load sample_page))).
  apply sample_game_Reachable.
Defined.

(** ** Scores are never negative *)

Lemma setup_loop_frame (ids : list nat) (s : State) :
  gameCategories (setup_loop ids s) = gameCategories s ∧
  teamScores (setup_loop ids s) = teamScores s.
Proof.
  destruct ids as [|id rest]; unfold setup_loop; [|done].
  by destruct (setup_finish_frame s) as (-> & -> & _).
Qed.

Lemma scores_inv_initial : ∀ s, teamScores s = initial_scores → scores_inv s.
Proof.
  intros s Hs. unfold scores_inv. rewrite Hs. split; [by vm_compute|].
  unfold initial_scores.
  repeat (apply map_Forall_insert_2; [simpl; lia|]). apply map_Forall_empty.
Qed.

Lemma scores_inv_lookup (s : State) (team : nat) :
  scores_inv s → team ∈ [1; 2; 3]%nat →
  ∃ z, teamScores s !! team = Some (Num z) ∧ 0 ≤ z.
Proof.
  intros [Hdom Hall] Hteam.
  assert (is_Some (teamScores s !! team)) as [n Hn].
  { apply elem_of_dom. rewrite Hdom. by apply elem_of_list_to_set. }
  specialize (Hall team n Hn). destruct n as [z|]; [eauto|done].
Qed.

Lemma scores_inv_adjustScore (team : nat) (adjust : JsData) (s : State) :
  scores_inv s → team ∈ [1; 2; 3]%nat → scores_inv (adjustScore team adjust s).
Proof.
  intros Hinv Hteam.
  destruct (scores_inv_lookup s team Hinv Hteam) as (z & Hz & Hpos).
  destruct Hinv as [Hdom Hall]. unfold scores_inv.
  rewrite teamScores_adjustScore.
  repeat case_decide; [| |done]; rewrite Hz; simpl.
  - split.
    + rewrite dom_insert_lookup_L; [done|by rewrite Hz].
    + apply map_Forall_insert_2; [simpl; lia|done].
  - split.
    + rewrite dom_insert_lookup_L; [done|by rewrite Hz].
    + apply map_Forall_insert_2; [simpl; lia|done].
Qed.

Lemma scores_inv_step (s : State) (e : Event) :
  scores_inv s → enabled s e = true → scores_inv (handle e s).
Proof.
  intros Hinv He. destruct e; cbn [handle enabled] in He |- *; try done.
  - apply scores_inv_adjustScore; [done|]. by apply bool_decide_eq_true in He.
  - unfold scores_inv.
    by destruct (handleCellClick_frame catIndex clueIndex s) as (-> & _).
  - by apply scores_inv_initial.
  - destruct response as [pool|error]; [|done].
    rewrite setup_ids_Ok. unfold scores_inv.
    by destruct (setup_loop_frame (sampleSize (info_id <$> pool) CATEGORY_TOTAL rng)
                   (with_gameCategories (λ _, []) s)) as (_ & ->).
  - destruct (pending s); try done.
    rewrite setup_data_eq. unfold scores_inv.
    match goal with |- context [setup_loop ?ids ?t] =>
      destruct (setup_loop_frame ids t) as (_ & ->) end.
    by destruct response.
Qed.

Lemma Reachable_scores_inv (s : State) : Reachable s → scores_inv s.
Proof.
  induction 1 as [html|s e _ IH He].
  - by apply scores_inv_initial.
  - by apply scores_inv_step.
Qed.

Lemma decreases_stay_at_0 (team : nat) (k : nat) (s : State) :
  teamScores s !! team = Some (Num 0) →
  teamScores (Nat.iter k (adjustScore team (DString "subtract")) s) !! team
    = Some (Num 0).
Proof.
  intros H0. induction k as [|k IH]; [done|].
  rewrite Nat.iter_succ, teamScores_adjustScore. simpl. by rewrite lookup_insert_eq, IH.
Qed.

(** C2. The scores start at 0 and, in every state the page can reach, the
    score mapping holds exactly the three teams, each with an integer score
    that is not negative; whatever score-adjustment action comes next, this
    still holds.  From a score of 0, one decrease, and any number of
    decreases, leaves the score at 0. *)
Theorem scores_never_negative (s : State) :
  Reachable s →
  (∀ html team, team ∈ [1; 2; 3]%nat →
     teamScores (page_load html) !! team = Some (Num 0)) ∧
  (∀ team, is_Some (teamScores s !! team) ↔ team ∈ [1; 2; 3]%nat) ∧
  (∀ team, team ∈ [1; 2; 3]%nat → ∃ z, teamScores s !! team = Some (Num z) ∧ 0 ≤ z) ∧
  (∀ actions : list (nat * JsData),
     Forall (λ a, a.1 ∈ [1; 2; 3]%nat) actions →
     ∀ team, team ∈ [1; 2; 3]%nat →
       ∃ z, teamScores (foldl (λ s a, adjustScore a.1 a.2 s) s actions) !! team
              = Some (Num z) ∧ 0 ≤ z) ∧
  (∀ team k, teamScores s !! team = Some (Num 0) →
     teamScores (Nat.iter k (adjustScore team (DString "subtract")) s) !! team
       = Some (Num 0)).
Proof.
  intros Hs%Reachable_scores_inv. split_and!.
  - intros html team Hteam.
    repeat (apply elem_of_cons in Hteam as [->|Hteam]); [done..|].
    by apply elem_of_nil in Hteam.
  - intros team. destruct Hs as [Hdom _].
    by rewrite <-elem_of_dom, Hdom, elem_of_list_to_set.
  - intros team Hteam. by apply scores_inv_lookup.
  - intros actions Hactions. revert s Hs.
    induction Hactions as [|[t a] actions Ht _ IH]; intros s Hs team Hteam; simpl.
    + by apply scores_inv_lookup.
    + apply IH; [|done]. by apply scores_inv_adjustScore.
  - intros team k. apply decreases_stay_at_0.
Qed.

Lemma scores_never_negative_witness :
  let s := run (sample_game ++ [ClickAdjust 2 (DString "subtract")]) (page_load sample_page) in
  (∀ html team, team ∈ [1; 2; 3]%nat →
     teamScores (page_load html) !! team = Some (Num 0)) ∧
  (∀ team, is_Some (teamScores s !! team) ↔ team ∈ [1; 2; 3]%nat) ∧
  (∀ team, team ∈ [1; 2; 3]%nat → ∃ z, teamScores s !! team = Some (Num z) ∧ 0 ≤ z) ∧
  (∀ actions : list (nat * JsData),
     Forall (λ a, a.1 ∈ [1; 2; 3]%nat) actions →
     ∀ team, team ∈ [1; 2; 3]%nat →
       ∃ z, teamScores (foldl (λ s a, adjustScore a.1 a.2 s) s actions) !! team
              = Some (Num z) ∧ 0 ≤ z) ∧
  (∀ team k, teamScores s !! team = Some (Num 0) →
     teamScores (Nat.iter k (adjustScore team (DString "subtract")) s) !! team
       = Some (Num 0)).
Proof.
  apply (scores_never_negative
           (run (sample_game ++ [ClickAdjust 2 (DString "subtract")]) (page_load sample_page))).
  apply run_Reachable; [apply Reachable_load|]. vm_compute. reflexivity.
Defined.

(** ** Revealing a clue *)

Lemma cell_text_empty (d : Dom) (catIndex clueIndex : nat) :
  tbody d = [] → cell_text d catIndex clueIndex = None.
Proof. unfold cell_text. by intros ->. Qed.

Lemma cell_text_new_board (d : Dom) (cats : list (option Category))
    (catIndex clueIndex : nat) (txt : string) :
  tbody d = board_row cats <$> seq 0 CLUES_PER_CATEGORY →
  cell_text d catIndex clueIndex = Some txt →
  txt = "?".
Proof.
  unfold cell_text. intros ->. rewrite list_lookup_fmap.
  destruct (seq 0 CLUES_PER_CATEGORY !! clueIndex) as [i|]; [|done].
  simpl. rewrite list_lookup_fmap.
  destruct (cats !! catIndex); simpl; congruence.
Qed.

Lemma cell_text_set_eq (d : Dom) (catIndex clueIndex : nat) (t : string) :
  is_Some (cell_text d catIndex clueIndex) →
  cell_text (set_cell_text catIndex clueIndex t d) catIndex clueIndex = Some t.
Proof.
  unfold cell_text, set_cell_text. simpl. intros [old Hold].
  rewrite list_lookup_alter_eq.
  destruct (tbody d !! clueIndex) as [r|]; [|done]. simpl in *.
  apply list_lookup_insert_eq. by eapply lookup_lt_Some.
Qed.

Lemma cell_text_set_ne (d : Dom) (catIndex clueIndex catIndex' clueIndex' : nat)
    (t : string) :
  (catIndex, clueIndex) ≠ (catIndex', clueIndex') →
  cell_text (set_cell_text catIndex clueIndex t d) catIndex' clueIndex'
    = cell_text d catIndex' clueIndex'.
Proof.
  unfold cell_text, set_cell_text. simpl. intros Hne.
  destruct (decide (clueIndex = clueIndex')) as [<-|Hi].
  - rewrite list_lookup_alter_eq.
    destruct (tbody d !! clueIndex) as [r|]; [|done]. simpl.
    apply list_lookup_insert_ne. congruence.
  - by rewrite list_lookup_alter_ne.
Qed.

Lemma clue_at_set_eq (s : State) (catIndex clueIndex : nat) (clue clue' : Clue) :
  clue_at s catIndex clueIndex = Some clue →
  clue_at (with_gameCategories (set_clue catIndex clueIndex clue') s) catIndex clueIndex
    = Some clue'.
Proof.
  unfold clue_at, set_clue. simpl.
  destruct (gameCategories s !! catIndex) as [[cat|]|] eqn:Hcat; [|done..].
  simpl. intros Hclue.
  rewrite list_lookup_insert_eq by (by eapply lookup_lt_Some). simpl.
  apply list_lookup_insert_eq. by eapply lookup_lt_Some.
Qed.

Lemma clue_at_set_ne (s : State) (catIndex clueIndex catIndex' clueIndex' : nat)
    (clue' : Clue) :
  (catIndex, clueIndex) ≠ (catIndex', clueIndex') →
  clue_at (with_gameCategories (set_clue catIndex clueIndex clue') s) catIndex' clueIndex'
    = clue_at s catIndex' clueIndex'.
Proof.
  unfold clue_at, set_clue. simpl. intros Hne.
  destruct (gameCategories s !! catIndex) as [[cat|]|] eqn:Hcat; [|done..].
  destruct (decide (catIndex = catIndex')) as [<-|Hc].
  - rewrite list_lookup_insert_eq by (by eapply lookup_lt_Some).
    rewrite Hcat. simpl. apply list_lookup_insert_ne. congruence.
  - by rewrite list_lookup_insert_ne.
Qed.

(** What a click does, in terms of the clue addressed. *)
Lemma handleCellClick_clue (s : State) (catIndex clueIndex : nat) (clue : Clue) :
  clue_at s catIndex clueIndex = Some clue →
  dispatch (handleCellClick catIndex clueIndex) s =
    match showing clue with
    | ShowingAnswer => s
    | v =>
        with_gameCategories
          (set_clue catIndex clueIndex (set_showing (next_showing v) clue))
          (with_page
             (set_cell_text catIndex clueIndex
                (mirrored_text (set_showing (next_showing v) clue))) s)
    end.
Proof.
  unfold clue_at, dispatch, handleCellClick, bind, modify, ret.
  destruct (gameCategories s !! catIndex) as [[cat|]|]; [|done..].
  simpl. intros ->. by destruct (showing clue).
Qed.

Lemma handleCellClick_no_clue (s : State) (catIndex clueIndex : nat) :
  clue_at s catIndex clueIndex = None →
  gameCategories (dispatch (handleCellClick catIndex clueIndex) s) = gameCategories s ∧
  page (dispatch (handleCellClick catIndex clueIndex) s) = page s.
Proof.
  unfold clue_at, dispatch, handleCellClick, bind, modify, ret, throw.
  destruct (gameCategories s !! catIndex) as [[cat|]|]; [|done..].
  simpl. by intros ->.
Qed.

Lemma set_showing_same (clue : Clue) : set_showing (showing clue) clue = clue.
Proof. by destruct clue. Qed.

(** One click on a cell that shows its clue: the clue moves to the next
    reveal state and the cell shows the text of that state. *)
Lemma click_advances (s : State) (catIndex clueIndex : nat) (clue : Clue) :
  clue_at s catIndex clueIndex = Some clue →
  cell_text (page s) catIndex clueIndex = Some (mirrored_text clue) →
  let s' := handle (ClickCell catIndex clueIndex) s in
  let clue' := set_showing (next_showing (showing clue)) clue in
  clue_at s' catIndex clueIndex = Some clue' ∧
  cell_text (page s') catIndex clueIndex = Some (mirrored_text clue').
Proof.
  intros Hclue Hcell. cbn [handle]. cbv zeta.
  rewrite (handleCellClick_clue s catIndex clueIndex clue Hclue).
  destruct (showing clue) eqn:Hshow; cbn [next_showing].
  - split; [by eapply clue_at_set_eq|].
    apply cell_text_set_eq. by rewrite Hcell.
  - split; [by eapply clue_at_set_eq|].
    apply cell_text_set_eq. by rewrite Hcell.
  - rewrite <-Hshow, set_showing_same. done.
Qed.

Lemma board_inv_ext (s s' : State) :
  gameCategories s' = gameCategories s →
  tbody (page s') = tbody (page s) →
  pending s' = pending s →
  board_inv s → board_inv s'.
Proof.
  unfold board_inv, fresh, clue_at, cell_text. intros -> -> ->. done.
Qed.

Lemma fresh_push (s : State) (response : Response ApiCategory) (rng : nat → nat)
    (catIndex clueIndex : nat) (clue : Clue) :
  fresh s →
  (gameCategories s ++ [fetched_category response rng]) !! catIndex
     ≫= (λ cat, cat ≫= λ c, clues c !! clueIndex) = Some clue →
  showing clue = ShowingNull.
Proof.
  intros Hfresh Hclue.
  destruct (decide (catIndex < length (gameCategories s))%nat) as [Hlt|Hge].
  - rewrite lookup_app_l in Hclue by done. by eapply Hfresh.
  - rewrite lookup_app_r in Hclue by lia.
    destruct (catIndex - length (gameCategories s))%nat; [|done].
    destruct response as [data|error]; [|done]. simpl in Hclue.
    rewrite list_lookup_fmap in Hclue.
    destruct (sampleSize (data_clues data) CLUES_PER_CATEGORY rng !! clueIndex);
      simpl in Hclue; [|done].
    by injection Hclue as <-.
Qed.

(** The board the setup ends with mirrors clues that are all hidden. *)
Lemma board_inv_setup_finish (s : State) :
  fresh s → board_inv (setup_finish s).
Proof.
  intros Hfresh.
  destruct (setup_finish_frame s) as (Hcats & _ & Hpend & _ & Htbody).
  rewrite tbody_createGameBoard in Htbody.
  unfold board_inv. rewrite Hpend. split; [|done].
  intros catIndex clueIndex clue txt Hclue Hcell.
  unfold clue_at in Hclue. rewrite Hcats in Hclue.
  apply Hfresh in Hclue. unfold mirrored_text. rewrite Hclue.
  destruct (header_titles (gameCategories s)).
  - by eapply cell_text_new_board.
  - by rewrite cell_text_empty in Hcell.
Qed.

Lemma board_inv_setup_loop (ids : list nat) (s : State) :
  tbody (page s) = [] → fresh s → board_inv (setup_loop ids s).
Proof.
  intros Htbody Hfresh. destruct ids as [|id rest]; unfold setup_loop.
  - by apply board_inv_setup_finish.
  - split; [|done]. intros catIndex clueIndex clue txt _ Hcell.
    by rewrite cell_text_empty in Hcell.
Qed.

Lemma board_inv_click (s : State) (catIndex clueIndex : nat) :
  board_inv s → is_Some (cell_text (page s) catIndex clueIndex) →
  board_inv (handle (ClickCell catIndex clueIndex) s).
Proof.
  intros [Hmirror Hload] Hcell.
  assert (Hpend : match pending s with AwaitIds | AwaitData _ _ => False | _ => True end).
  { destruct (pending s); try done; destruct Hcell as [t Ht];
      [rewrite (cell_text_empty _ _ _ Hload) in Ht
      |rewrite (cell_text_empty _ _ _ (proj1 Hload)) in Ht]; done. }
  split; cycle 1.
  { cbn [handle].
    destruct (handleCellClick_frame catIndex clueIndex s) as (_ & -> & _).
    by destruct (pending s). }
  destruct (clue_at s catIndex clueIndex) as [clue|] eqn:Hclue; cycle 1.
  { cbn [handle].
    destruct (handleCellClick_no_clue s catIndex clueIndex Hclue) as [Hc Hp].
    unfold clue_at. rewrite Hc, Hp. apply Hmirror. }
  destruct Hcell as [t Ht]. pose proof (Hmirror _ _ _ _ Hclue Ht) as ->.
  destruct (click_advances s catIndex clueIndex clue Hclue Ht) as [Hclue' Hcell'].
  intros catIndex' clueIndex' clue' txt.
  destruct (decide ((catIndex, clueIndex) = (catIndex', clueIndex'))) as [Heq|Hne].
  - injection Heq as <- <-. rewrite Hclue', Hcell'. congruence.
  - cbn [handle]. rewrite (handleCellClick_clue s catIndex clueIndex clue Hclue).
    destruct (showing clue);
      rewrite ?clue_at_set_ne by done; simpl; rewrite ?cell_text_set_ne by done;
      apply Hmirror.
Qed.

Lemma board_inv_step (s : State) (e : Event) :
  board_inv s → enabled s e = true → board_inv (handle e s).
Proof.
  intros Hinv He. destruct e; cbn [handle enabled] in He |- *.
  - destruct Hinv as [Hmirror _]. split; [exact Hmirror|done].
  - destruct Hinv as [Hmirror _]. split; [exact Hmirror|done].
  - exact Hinv.
  - exact Hinv.
  - destruct (adjustScore_frame team adjust s) as (Hc & Hp & _ & _ & _ & Ht).
    by eapply board_inv_ext.
  - apply andb_true_iff in He as [_ He%bool_decide_eq_true].
    by apply (board_inv_click s catIndex clueIndex).
  - split; [|done]. intros catIndex clueIndex clue txt _ Hcell.
    by rewrite cell_text_empty in Hcell.
  - destruct Hinv as [_ Hload].
    destruct (pending s); try discriminate.
    destruct response as [pool|error].
    + rewrite setup_ids_Ok. apply board_inv_setup_loop; [done|].
      intros catIndex clueIndex clue. unfold clue_at. simpl. done.
    + rewrite setup_ids_Failed. split; [|done].
      intros catIndex clueIndex clue txt. unfold clue_at. simpl. done.
  - destruct Hinv as [_ Hload].
    destruct (pending s); try discriminate. destruct Hload as [Htbody Hfresh].
    rewrite setup_data_eq. apply board_inv_setup_loop.
    + by destruct response.
    + intros catIndex clueIndex clue Hclue.
      apply (fresh_push s response rng catIndex clueIndex clue Hfresh).
      by destruct response.
Qed.

Lemma Reachable_board_inv (s : State) : Reachable s → board_inv s.
Proof.
  induction 1 as [html|s e _ IH He].
  - split; [|done]. intros catIndex clueIndex clue txt. unfold clue_at. simpl. done.
  - by apply board_inv_step.
Qed.

Lemma clicks_stay_at_answer (s : State) (catIndex clueIndex : nat) (clue : Clue) (k : nat) :
  showing clue = ShowingAnswer →
  clue_at s catIndex clueIndex = Some clue →
  cell_text (page s) catIndex clueIndex = Some (answer clue) →
  Nat.iter k (handle (ClickCell catIndex clueIndex)) s = s.
Proof.
  intros Hshow Hclue Hcell. induction k as [|k IH]; [done|].
  rewrite Nat.iter_succ, IH. cbn [handle].
  by rewrite (handleCellClick_clue s catIndex clueIndex clue Hclue), Hshow.
Qed.

(** C1. In every state the page can reach, the cell of a clue shows the
    text of the clue's reveal state: ["?"] when hidden, the question when
    at Question, the answer when at Answer; a reveal trigger addressed to the
    clue moves it one state forward and the cell follows.  So for a hidden
    clue the first trigger gives Question and the question text, the second
    Answer and the answer text, and any number of further triggers changes
    nothing. *)
Theorem reveal_state_machine (s : State) (catIndex clueIndex : nat) (clue : Clue) :
  Reachable s →
  clue_at s catIndex clueIndex = Some clue →
  is_Some (cell_text (page s) catIndex clueIndex) →
  let click := handle (ClickCell catIndex clueIndex) in
  cell_text (page s) catIndex clueIndex = Some (mirrored_text clue) ∧
  clue_at (click s) catIndex clueIndex
    = Some (set_showing (next_showing (showing clue)) clue) ∧
  cell_text (page (click s)) catIndex clueIndex
    = Some (mirrored_text (set_showing (next_showing (showing clue)) clue)) ∧
  (showing clue = ShowingNull →
     cell_text (page s) catIndex clueIndex = Some "?" ∧
     clue_at (click s) catIndex clueIndex = Some (set_showing ShowingQuestion clue) ∧
     cell_text (page (click s)) catIndex clueIndex = Some (question clue) ∧
     clue_at (click (click s)) catIndex clueIndex = Some (set_showing ShowingAnswer clue) ∧
     cell_text (page (click (click s))) catIndex clueIndex = Some (answer clue) ∧
     ∀ k, Nat.iter k click (click (click s)) = click (click s)).
Proof.
  intros Hs%Reachable_board_inv Hclue [txt Hcell] click.
  destruct Hs as [Hmirror _].
  pose proof (Hmirror _ _ _ _ Hclue Hcell) as ->.
  destruct (click_advances s catIndex clueIndex clue Hclue Hcell) as [Hclue1 Hcell1].
  split_and!; [done..|]. intros Hshow.
  fold click in Hclue1, Hcell1. rewrite Hshow in Hclue1, Hcell1.
  cbn [next_showing] in Hclue1, Hcell1.
  destruct (click_advances (click s) catIndex clueIndex _ Hclue1 Hcell1)
    as [Hclue2 Hcell2].
  fold click in Hclue2, Hcell2.
  unfold mirrored_text in Hcell. rewrite Hshow in Hcell.
  split_and!; [done..|].
  intros k.
  eapply (clicks_stay_at_answer _ _ _ _ k); [|exact Hclue2|exact Hcell2]. reflexivity.
Qed.

Lemma reveal_state_machine_witness :
  let s := run sample_game (page_load sample_page) in
  let clue := {| question := "q4"; answer := "a4"; showing := ShowingNull |} in
  let click := handle (ClickCell 1 2) in
  cell_text (page s) 1 2 = Some (mirrored_text clue) ∧
  clue_at (click s) 1 2 = Some (set_showing (next_showing (showing clue)) clue) ∧
  cell_text (page (click s)) 1 2
    = Some (mirrored_text (set_showing (next_showing (showing clue)) clue)) ∧
  (showing clue = ShowingNull →
     cell_text (page s) 1 2 = Some "?" ∧
     clue_at (click s) 1 2 = Some (set_showing ShowingQuestion clue) ∧
     cell_text (page (click s)) 1 2 = Some (question clue) ∧
     clue_at (click (click s)) 1 2 = Some (set_showing ShowingAnswer clue) ∧
     cell_text (page (click (click s))) 1 2 = Some (answer clue) ∧
     ∀ k, Nat.iter k click (click (click s)) = click (click s)).
Proof.
  apply (reveal_state_machine (run sample_game (page_load sample_page)) 1 2
           {| question := "q4"; answer := "a4"; showing := ShowingNull |}).
  - apply sample_game_Reachable.
  - vm_compute. reflexivity.
  - exists "?". vm_compute. reflexivity.
Defined.

(** ** A new game *)

Section Setup.
Variable category : nat → Response ApiCategory * (nat → nat).

Lemma setup_resume_Idle (fuel : nat) (s : State) :
  pending s = Idle → setup_resume category fuel s = s.
Proof. intros Hp. destruct fuel; simpl; [done|]. by rewrite Hp. Qed.

(** The loop runs to its end on the fuel given: every identifier is
    fetched in turn and its result pushed. *)
Lemma setup_resume_loop (ids : list nat) :
  ∀ (fuel : nat) (s : State),
    (length ids ≤ fuel)%nat →
    gameCategories (setup_resume category fuel (setup_loop ids s))
      = gameCategories s
          ++ ((λ id, fetched_category (category id).1 (category id).2) <$> ids) ∧
    teamScores (setup_resume category fuel (setup_loop ids s)) = teamScores s ∧
    pending (setup_resume category fuel (setup_loop ids s)) = Idle.
Proof.
  induction ids as [|id rest IH]; intros fuel s Hfuel.
  - unfold setup_loop.
    destruct (setup_finish_frame s) as (Hc & Ht & Hp & _).
    rewrite setup_resume_Idle by done. by rewrite Hc, Ht, Hp, app_nil_r.
  - destruct fuel as [|fuel]; [simpl in Hfuel; lia|].
    cbn [setup_loop setup_resume]. cbn [pending with_pending].
    rewrite setup_data_eq.
    match goal with |- context [setup_loop rest ?t] =>
      destruct (IH fuel t) as (Hc & Ht & Hp) end.
    { simpl in Hfuel. lia. }
    rewrite Hc, Ht, Hp. split_and!; [|by destruct (category id).1|done].
    rewrite fmap_cons, cons_middle, app_assoc. f_equal.
    by destruct (category id).1.
Qed.
End Setup.

Lemma setupAndStartGame_result
    (categories : Response (list ApiCategoryInfo) * (nat → nat))
    (category : nat → Response ApiCategory * (nat → nat)) (s : State) :
  gameCategories (setupAndStartGame categories category s)
    = fetched_game categories category ∧
  teamScores (setupAndStartGame categories category s) = initial_scores ∧
  pending (setupAndStartGame categories category s) = Idle.
Proof.
  unfold setupAndStartGame, fetched_game.
  destruct categories as [[pool|error] rng]; cbn [fst snd].
  - rewrite setup_ids_Ok.
    match goal with |- context [setup_loop ?ids ?t] =>
      destruct (setup_resume_loop category ids CATEGORY_TOTAL t) as (Hc & Ht & Hp) end.
    { rewrite length_sampleSize. lia. }
    by rewrite Hc, Ht, Hp.
  - rewrite setup_ids_Failed. by rewrite setup_resume_Idle.
Qed.

Lemma fetched_game_hidden
    (categories : Response (list ApiCategoryInfo) * (nat → nat))
    (category : nat → Response ApiCategory * (nat → nat))
    (catIndex clueIndex : nat) (clue : Clue) :
  fetched_game categories category !! catIndex
    ≫= (λ cat, cat ≫= λ c, clues c !! clueIndex) = Some clue →
  showing clue = ShowingNull.
Proof.
  unfold fetched_game. destruct categories.1 as [pool|error]; [|done].
  rewrite list_lookup_fmap.
  destruct (sampleSize (info_id <$> pool) CATEGORY_TOTAL categories.2 !! catIndex)
    as [id|]; [|done].
  simpl. destruct (category id).1 as [data|error]; [|done]. simpl.
  rewrite list_lookup_fmap.
  destruct (sampleSize (data_clues data) CLUES_PER_CATEGORY (category id).2 !! clueIndex);
    [|done].
  simpl. by intros [= <-].
Qed.

Lemma gameCategories_setup_ids (response : Response (list ApiCategoryInfo))
    (rng : nat → nat) (s : State) :
  gameCategories (setup_ids response rng s) = [].
Proof.
  destruct response as [pool|error]; [|done].
  rewrite setup_ids_Ok.
  match goal with |- context [setup_loop ?ids ?t] =>
    by destruct (setup_loop_frame ids t) as (-> & _) end.
Qed.

(** Whatever was interleaved with the setup, the category list a response
    leaves behind holds hidden clues only. *)
Lemma response_fresh (s : State) (e : Event) :
  Reachable s → is_response e = true → enabled s e = true → fresh (handle e s).
Proof.
  intros [_ Hload]%Reachable_board_inv Hr He.
  destruct e; try discriminate; cbn [handle enabled] in *.
  - intros catIndex clueIndex clue. unfold clue_at.
    by rewrite gameCategories_setup_ids.
  - destruct (pending s) as [| | |id rest]; try discriminate.
    destruct Hload as [_ Hfresh].
    intros catIndex clueIndex clue. unfold clue_at. rewrite setup_data_eq.
    match goal with |- context [setup_loop ?ids ?t] =>
      destruct (setup_loop_frame ids t) as (-> & _) end.
    intros Hclue. apply (fresh_push s response rng catIndex clueIndex clue Hfresh).
    by destruct response.
Qed.

(** C8. A game start and a game restart both end with the three scores at 0
    and with a category list made of the freshly fetched categories alone,
    every clue hidden: the new list is a function of the responses of the
    remote service, nothing of the state before is carried over.  The scores
    are reset when the timer callback runs, the category list is emptied
    when the identifiers come back (even when fetching them failed), and
    from then on, whatever events come in between, it holds hidden clues
    only. *)
Theorem new_game_resets_state (restart : bool)
    (categories : Response (list ApiCategoryInfo) * (nat → nat))
    (category : nat → Response ApiCategory * (nat → nat)) (s : State) :
  let click := if restart then ClickRestart else ClickStart in
  let s' := new_game restart categories category s in
  teamScores s' = initial_scores ∧
  (∀ team, team ∈ [1; 2; 3]%nat → teamScores s' !! team = Some (Num 0)) ∧
  gameCategories s' = fetched_game categories category ∧
  fresh s' ∧
  pending s' = Idle ∧
  teamScores (handle TimerFires (handle click s)) = initial_scores ∧
  (∀ s1 response rng, gameCategories (handle (IdsResponse response rng) s1) = []) ∧
  (∀ s1 e, Reachable s1 → is_response e = true → enabled s1 e = true →
     fresh (handle e s1)) ∧
  (∀ s2, gameCategories (new_game restart categories category s2) = gameCategories s' ∧
         teamScores (new_game restart categories category s2) = teamScores s').
Proof.
  intros click s'. unfold s', new_game.
  match goal with |- context [setupAndStartGame _ _ ?t] =>
    destruct (setupAndStartGame_result categories category t) as (Hc & Ht & Hp) end.
  split_and!.
  - done.
  - intros team Hteam. rewrite Ht.
    repeat (apply elem_of_cons in Hteam as [->|Hteam]); [done..|].
    by apply elem_of_nil in Hteam.
  - done.
  - intros catIndex clueIndex clue. unfold clue_at. rewrite Hc.
    apply fetched_game_hidden.
  - done.
  - by destruct restart.
  - intros s1 response rng. apply gameCategories_setup_ids.
  - apply response_fresh.
  - intros s2.
    match goal with |- context [setupAndStartGame _ _ ?t] =>
      destruct (setupAndStartGame_result categories category t) as (Hc2 & Ht2 & _) end.
    by rewrite Hc, Ht, Hc2, Ht2.
Qed.

(** * Further properties *)

(** ** The board *)

Lemma header_titles_Some (cats : list Category) :
  header_titles (Some <$> cats) = Some (title <$> cats).
Proof.
  unfold header_titles. apply mapM_Some.
  induction cats as [|cat cats IH]; simpl; constructor; done.
Qed.

Lemma header_titles_None (cats : list (option Category)) :
  None ∈ cats → header_titles cats = None.
Proof.
  intros Hin. unfold header_titles. apply mapM_None, Exists_exists.
  exists None. done.
Qed.

Lemma createGameBoard_Some (s : State) (titles : list string) :
  header_titles (gameCategories s) = Some titles →
  dispatch createGameBoard s =
    with_page (with_table ["Value" :: titles]
                 (board_row (gameCategories s) <$> seq 0 CLUES_PER_CATEGORY))
      (with_page (with_table [] []) s).
Proof.
  intros Htitles. unfold dispatch, createGameBoard, bind, modify.
  cbn -[seq board_row CLUES_PER_CATEGORY header_titles]. by rewrite Htitles.
Qed.

(** X1. On a category list without holes, [createGameBoard] builds one
    header row, ["Value"] followed by the titles in order, and five rows;
    row [i] is labelled [(i + 1) * 100] and has one ["?"] cell per category.
    So the cell [cell-c-i] exists exactly for [c] below the number of
    categories and [i] below 5.  Nothing is thrown. *)
Theorem createGameBoard_layout (s : State) (cats : list Category) :
  gameCategories s = Some <$> cats →
  let s' := dispatch createGameBoard s in
  thead (page s') = ["Value" :: (title <$> cats)] ∧
  length (tbody (page s')) = CLUES_PER_CATEGORY ∧
  (∀ i row, tbody (page s') !! i = Some row →
     row_value row = pretty ((i + 1) * 100)%nat ∧
     row_cells row = replicate (length cats) "?") ∧
  (∀ catIndex clueIndex,
     cell_text (page s') catIndex clueIndex =
       if decide (catIndex < length cats ∧ clueIndex < CLUES_PER_CATEGORY)%nat
       then Some "?" else None) ∧
  console s' = console s.
Proof.
  intros Hcats.
  assert (Hrow : ∀ i, board_row (gameCategories s) i =
            {| row_value := pretty ((i + 1) * 100)%nat;
               row_cells := replicate (length cats) "?" |}).
  { intros i. unfold board_row. rewrite Hcats. f_equal.
    rewrite (const_fmap _ _ "?") by done. f_equal. apply length_fmap. }
  rewrite (createGameBoard_Some s (title <$> cats))
    by (by rewrite Hcats, header_titles_Some).
  cbn -[seq board_row CLUES_PER_CATEGORY].
  split_and!; [done|by rewrite length_fmap, length_seq| | |done].
  - intros i row. rewrite list_lookup_fmap.
    destruct (seq 0 CLUES_PER_CATEGORY !! i) as [j|] eqn:Hj; [|done].
    apply lookup_seq in Hj as [-> _]. cbn -[board_row]. intros [= <-]. by rewrite Hrow.
  - intros catIndex clueIndex. unfold cell_text. cbn -[seq board_row CLUES_PER_CATEGORY].
    rewrite list_lookup_fmap.
    destruct (decide (clueIndex < CLUES_PER_CATEGORY)%nat) as [Hi|Hi].
    + rewrite lookup_seq_lt by done. cbn -[board_row]. rewrite Hrow. simpl.
      destruct (decide (catIndex < length cats)%nat) as [Hc|Hc].
      * rewrite lookup_replicate_2 by done. by rewrite decide_True.
      * rewrite (proj1 (lookup_replicate_None _ _ _)) by lia.
        rewrite decide_False; [done|]. tauto.
    + rewrite lookup_seq_ge by lia. simpl. rewrite decide_False; [done|]. tauto.
Qed.

Lemma createGameBoard_layout_witness :
  let s := run sample_game (page_load sample_page) in
  let cats := [ {| title := "category 0";
                   clues := format_clue <$> sampleSize (data_clues (sample_category 6 0))
                                              CLUES_PER_CATEGORY sample_rng |};
                {| title := "category 1";
                   clues := format_clue <$> sampleSize (data_clues (sample_category 5 1))
                                              CLUES_PER_CATEGORY sample_rng |} ] in
  let s' := dispatch createGameBoard s in
  thead (page s') = ["Value" :: (title <$> cats)] ∧
  length (tbody (page s')) = CLUES_PER_CATEGORY ∧
  (∀ i row, tbody (page s') !! i = Some row →
     row_value row = pretty ((i + 1) * 100)%nat ∧
     row_cells row = replicate (length cats) "?") ∧
  (∀ catIndex clueIndex,
     cell_text (page s') catIndex clueIndex =
       if decide (catIndex < length cats ∧ clueIndex < CLUES_PER_CATEGORY)%nat
       then Some "?" else None) ∧
  console s' = console s.
Proof.
  apply (createGameBoard_layout (run sample_game (page_load sample_page))).
  vm_compute. reflexivity.
Defined.

(** X2. On a category list with a hole (a category whose fetch failed),
    [createGameBoard] throws on [cat.title] after it has emptied the table:
    header and body stay empty.  The setup goes on all the same: it shows the
    board panel, hides the loading panel, and the error ends on the
    console. *)
Theorem createGameBoard_undefined_category (s : State) :
  None ∈ gameCategories s →
  createGameBoard s =
    (Throw (TypeError "Cannot read properties of undefined (reading 'title')"),
     with_page (with_table [] []) s) ∧
  thead (page (setup_finish s)) = [] ∧
  tbody (page (setup_finish s)) = [] ∧
  (∀ catIndex clueIndex, enabled (setup_finish s) (ClickCell catIndex clueIndex) = false) ∧
  game_board_screen (panels (page (setup_finish s))) = true ∧
  loading_screen (panels (page (setup_finish s))) = false ∧
  console (setup_finish s) =
    console s ++ [Uncaught (TypeError "Cannot read properties of undefined (reading 'title')")].
Proof.
  intros Hin%header_titles_None.
  unfold setup_finish, enabled, cell_text, dispatch, createGameBoard, bind, modify, throw.
  simpl. rewrite Hin. simpl. split_and!; try done.
Qed.

Lemma createGameBoard_undefined_category_witness :
  let s := run (take 4 broken_game) (page_load sample_page) in
  createGameBoard s =
    (Throw (TypeError "Cannot read properties of undefined (reading 'title')"),
     with_page (with_table [] []) s) ∧
  thead (page (setup_finish s)) = [] ∧
  tbody (page (setup_finish s)) = [] ∧
  (∀ catIndex clueIndex, enabled (setup_finish s) (ClickCell catIndex clueIndex) = false) ∧
  game_board_screen (panels (page (setup_finish s))) = true ∧
  loading_screen (panels (page (setup_finish s))) = false ∧
  console (setup_finish s) =
    console s ++ [Uncaught (TypeError "Cannot read properties of undefined (reading 'title')")].
Proof.
  apply (createGameBoard_undefined_category (run (take 4 broken_game) (page_load sample_page))).
  vm_compute. apply list_elem_of_here.
Defined.

(** ** Clicks on the board *)

(** X3. A click on a cell that stands for no clue (the category has fewer
    clues than the board has rows, or its fetch failed) throws before
    anything is written: the state after the click is the state before with
    one uncaught [TypeError] more on the console. *)
Theorem click_without_clue (s : State) (catIndex clueIndex : nat) :
  clue_at s catIndex clueIndex = None →
  ∃ message,
    handle (ClickCell catIndex clueIndex) s =
      with_console (λ c, c ++ [Uncaught (TypeError message)]) s.
Proof.
  unfold clue_at. cbn [handle].
  unfold dispatch, handleCellClick, throw.
  destruct (gameCategories s !! catIndex) as [[cat|]|]; simpl.
  - intros ->. eauto.
  - eauto.
  - eauto.
Qed.

Lemma click_without_clue_witness :
  let s := run short_game (page_load sample_page) in
  enabled s (ClickCell 1 4) = true ∧
  ∃ message,
    handle (ClickCell 1 4) s = with_console (λ c, c ++ [Uncaught (TypeError message)]) s.
Proof.
  split; [vm_compute; reflexivity|].
  apply (click_without_clue (run short_game (page_load sample_page)) 1 4).
  vm_compute. reflexivity.
Defined.

Lemma click_clue_effect (s : State) (catIndex clueIndex : nat) (clue : Clue) :
  clue_at s catIndex clueIndex = Some clue →
  clue_at (handle (ClickCell catIndex clueIndex) s) catIndex clueIndex
    = Some (set_showing (next_showing (showing clue)) clue).
Proof.
  intros Hclue. cbn [handle].
  rewrite (handleCellClick_clue s catIndex clueIndex clue Hclue).
  destruct (showing clue) eqn:Hshow; cbn [next_showing].
  - by eapply clue_at_set_eq.
  - by eapply clue_at_set_eq.
  - by rewrite <-Hshow, set_showing_same.
Qed.

Lemma click_elsewhere (s : State) (catIndex clueIndex catIndex' clueIndex' : nat) :
  (catIndex, clueIndex) ≠ (catIndex', clueIndex') →
  clue_at (handle (ClickCell catIndex clueIndex) s) catIndex' clueIndex'
    = clue_at s catIndex' clueIndex' ∧
  cell_text (page (handle (ClickCell catIndex clueIndex) s)) catIndex' clueIndex'
    = cell_text (page s) catIndex' clueIndex'.
Proof.
  intros Hne. cbn [handle].
  destruct (clue_at s catIndex clueIndex) as [clue|] eqn:Hclue.
  - rewrite (handleCellClick_clue s catIndex clueIndex clue Hclue).
    destruct (showing clue); [| |done];
      by rewrite clue_at_set_ne; simpl; rewrite ?cell_text_set_ne.
  - destruct (handleCellClick_no_clue s catIndex clueIndex Hclue) as [Hc Hp].
    unfold clue_at. by rewrite Hc, Hp.
Qed.

(** X4. A click on a cell leaves the scores, the panels, the header, the
    leaderboard and the pending setup alone; it changes no other clue and
    no other cell; the clue clicked keeps its question and its answer, and
    the table and the category list keep their sizes. *)
Theorem click_frame (s : State) (catIndex clueIndex : nat) :
  let s' := handle (ClickCell catIndex clueIndex) s in
  teamScores s' = teamScores s ∧
  pending s' = pending s ∧
  panels (page s') = panels (page s) ∧
  thead (page s') = thead (page s) ∧
  score_text (page s') = score_text (page s) ∧
  rankings (page s') = rankings (page s) ∧
  winning_team_heading (page s') = winning_team_heading (page s) ∧
  final_rankings (page s') = final_rankings (page s) ∧
  length (tbody (page s')) = length (tbody (page s)) ∧
  length (gameCategories s') = length (gameCategories s) ∧
  (∀ catIndex' clueIndex', (catIndex, clueIndex) ≠ (catIndex', clueIndex') →
     clue_at s' catIndex' clueIndex' = clue_at s catIndex' clueIndex' ∧
     cell_text (page s') catIndex' clueIndex' = cell_text (page s) catIndex' clueIndex') ∧
  (∀ clue, clue_at s catIndex clueIndex = Some clue →
     ∃ clue', clue_at s' catIndex clueIndex = Some clue' ∧
              question clue' = question clue ∧ answer clue' = answer clue).
Proof.
  cbv zeta. split_and!.
  11: { intros c' i' Hne. by apply click_elsewhere. }
  11: { intros clue Hclue. eexists. split; [by apply click_clue_effect|done]. }
  all: cbn [handle];
    destruct (clue_at s catIndex clueIndex) as [clue|] eqn:Hclue;
    [rewrite (handleCellClick_clue s catIndex clueIndex clue Hclue);
     destruct (showing clue); simpl; rewrite ?length_alter; try done
    |destruct (handleCellClick_no_clue s catIndex clueIndex Hclue) as [Hc Hp];
     destruct (handleCellClick_frame catIndex clueIndex s) as (Ht & Hpe & _);
     by rewrite ?Hc, ?Hp, ?Ht, ?Hpe].
  all: unfold set_clue; destruct (gameCategories s !! catIndex) as [[cat|]|];
    by rewrite ?length_insert.
Qed.

(** X5. Within a game a clue only moves forward.  Whatever happens, short
    of the response that starts the next category list, a clue stays at
    its place with its question and answer, its reveal state does not go
    back, and it changes only by a click on its own cell. *)
Theorem clue_only_moves_forward (s : State) (e : Event) (catIndex clueIndex : nat)
    (clue : Clue) :
  is_ids_response e = false →
  clue_at s catIndex clueIndex = Some clue →
  ∃ clue',
    clue_at (handle e s) catIndex clueIndex = Some clue' ∧
    question clue' = question clue ∧
    answer clue' = answer clue ∧
    (showing_rank (showing clue) ≤ showing_rank (showing clue'))%nat ∧
    (clue' ≠ clue → e = ClickCell catIndex clueIndex).
Proof.
  intros He Hclue.
  destruct e as [| | | |team adjust|c i| |response rng|response rng];
    try discriminate; cbn [handle];
    try (by exists clue).
  - exists clue. split_and!; try done. unfold clue_at.
    by destruct (adjustScore_frame team adjust s) as (-> & _).
  - change (dispatch (handleCellClick c i) s) with (handle (ClickCell c i) s).
    destruct (decide ((c, i) = (catIndex, clueIndex))) as [[= -> ->]|Hne].
    + eexists. split; [by apply click_clue_effect|].
      split_and!; try done. destruct (showing clue); simpl; lia.
    + exists clue. split_and!; try done.
      by destruct (click_elsewhere s c i catIndex clueIndex Hne) as [-> _].
  - exists clue. split_and!; try done.
    destruct (pending s) as [| | |id rest]; try done.
    rewrite setup_data_eq. unfold clue_at in *.
    match goal with |- context [setup_loop ?ids ?t] =>
      destruct (setup_loop_frame ids t) as (-> & _) end.
    destruct (gameCategories s !! catIndex) as [cat|] eqn:Hcat; [|done].
    destruct response; simpl;
      rewrite lookup_app_l by (by eapply lookup_lt_Some); by rewrite Hcat.
Qed.

Lemma clue_only_moves_forward_witness :
  let s := run (sample_game ++ [ClickCell 1 2]) (page_load sample_page) in
  let clue := {| question := "q4"; answer := "a4"; showing := ShowingQuestion |} in
  ∃ clue',
    clue_at (handle ClickRestart s) 1 2 = Some clue' ∧
    question clue' = question clue ∧
    answer clue' = answer clue ∧
    (showing_rank (showing clue) ≤ showing_rank (showing clue'))%nat ∧
    (clue' ≠ clue → ClickRestart = ClickCell 1 2).
Proof.
  apply (clue_only_moves_forward
           (run (sample_game ++ [ClickCell 1 2]) (page_load sample_page)) ClickRestart 1 2).
  - reflexivity.
  - vm_compute. reflexivity.
Defined.

(** ** Small pools *)

Lemma sampleSize_all {A} (l : list A) (n : nat) (rng : nat → nat) :
  (length l ≤ n)%nat → sampleSize l n rng ≡ₚ l.
Proof.
  intros Hn. unfold sampleSize, shuffleSelf, baseClamp.
  rewrite take_ge.
  - apply shuffle_rounds_Permutation.
  - rewrite (Permutation_length (shuffle_rounds_Permutation _ _ _ _)). lia.
Qed.

(** X6. When the service returns no more than 6 categories,
    [fetchCategoryIds] returns the identifiers of all of them, each as often
    as the pool has it, in a shuffled order; for an empty pool it returns
    the empty array. *)
Theorem fetchCategoryIds_small_pool (pool : list ApiCategoryInfo) (rng : nat → nat)
    (s : State) :
  (length pool ≤ CATEGORY_TOTAL)%nat →
  ∃ ids : list nat,
    fetchCategoryIds (Ok pool) rng s = (Return (Some ids), s) ∧
    ids ≡ₚ info_id <$> pool ∧
    length ids = length pool ∧
    (pool = [] → ids = []).
Proof.
  intros Hlen. eexists. split; [reflexivity|].
  assert (Hperm : sampleSize (info_id <$> pool) CATEGORY_TOTAL rng ≡ₚ info_id <$> pool)
    by (apply sampleSize_all; by rewrite length_fmap).
  split_and!.
  - done.
  - by rewrite Hperm, length_fmap.
  - intros ->. reflexivity.
Qed.

Lemma fetchCategoryIds_small_pool_witness :
  ∃ ids : list nat,
    fetchCategoryIds (Ok (sample_pool 3)) sample_rng (page_load sample_page)
      = (Return (Some ids), page_load sample_page) ∧
    ids ≡ₚ info_id <$> sample_pool 3 ∧
    length ids = length (sample_pool 3) ∧
    (sample_pool 3 = [] → ids = []).
Proof.
  apply (fetchCategoryIds_small_pool (sample_pool 3) sample_rng (page_load sample_page)).
  vm_compute. lia.
Defined.

(** ** More on scores *)

Lemma teamScores_adjustScore_add (team : nat) (s : State) :
  teamScores (adjustScore team (DString "add") s)
    = <[team := js_add (to_number (teamScores s !! team)) (Num 100)]> (teamScores s).
Proof. by rewrite teamScores_adjustScore. Qed.

Lemma teamScores_adjustScore_subtract (team : nat) (s : State) :
  teamScores (adjustScore team (DString "subtract") s)
    = <[team := Math_max (Num 0) (js_sub (to_number (teamScores s !! team)) (Num 100))]>
        (teamScores s).
Proof. by rewrite teamScores_adjustScore. Qed.

(** X7. A score adjustment addressed to a team the score object does not
    hold, or whose score is [NaN], leaves that team at [NaN] for both
    directions (and creates no entry for any other direction); the
    leaderboard then lists the team with the text [NaN]. *)
Theorem adjustScore_unknown_team (team : nat) (adjust : JsData) (s : State) :
  to_number (teamScores s !! team) = NaN →
  let s' := adjustScore team adjust s in
  (adjust = DString "add" ∨ adjust = DString "subtract" →
     teamScores s' !! team = Some NaN ∧
     "Team " +:+ pretty team +:+ ": NaN" ∈ rankings (page s')) ∧
  (adjust ≠ DString "add" → adjust ≠ DString "subtract" →
     teamScores s' !! team = teamScores s !! team).
Proof.
  intros Hnan. cbv zeta. split.
  - intros Hadjust.
    assert (Hscore : teamScores (adjustScore team adjust s) !! team = Some NaN).
    { destruct Hadjust as [-> | ->].
      - by rewrite teamScores_adjustScore_add, lookup_insert_eq, Hnan.
      - by rewrite teamScores_adjustScore_subtract, lookup_insert_eq, Hnan. }
    split; [done|].
    change (rankings (page (adjustScore team adjust s)))
      with (leaderboard_line (teamScores (adjustScore team adjust s))
              <$> sortedTeams (teamScores (adjustScore team adjust s))).
    apply list_elem_of_fmap. exists team. split.
    + unfold leaderboard_line, show_score. by rewrite Hscore.
    + rewrite sortedTeams_Permutation. apply elem_of_Object_keys. by rewrite Hscore.
  - intros Hadd Hsub. rewrite teamScores_adjustScore. by rewrite !decide_False.
Qed.

Lemma adjustScore_unknown_team_witness :
  let s := page_load sample_page in
  let s' := adjustScore 4 (DString "subtract") s in
  (DString "subtract" = DString "add" ∨ DString "subtract" = DString "subtract" →
     teamScores s' !! 4%nat = Some NaN ∧
     "Team " +:+ pretty 4%nat +:+ ": NaN" ∈ rankings (page s')) ∧
  (DString "subtract" ≠ DString "add" → DString "subtract" ≠ DString "subtract" →
     teamScores s' !! 4%nat = teamScores s !! 4%nat).
Proof.
  apply (adjustScore_unknown_team 4 (DString "subtract") (page_load sample_page)).
  vm_compute. reflexivity.
Defined.

Lemma hundreds_step (s : State) (e : Event) :
  scores_inv s → map_Forall (λ _, hundreds) (teamScores s) → enabled s e = true →
  map_Forall (λ _, hundreds) (teamScores (handle e s)).
Proof.
  intros Hinv Hall He. destruct e; cbn [handle enabled] in He |- *; try done.
  - apply bool_decide_eq_true in He.
    destruct (scores_inv_lookup s team Hinv He) as (z & Hz & Hpos).
    destruct (Hall team _ Hz) as (k & Hk & [= ->]).
    rewrite teamScores_adjustScore. repeat case_decide; [| |done]; rewrite Hz; simpl.
    + apply map_Forall_insert_2; [|done]. exists (k + 1). split; [lia|]. f_equal. lia.
    + apply map_Forall_insert_2; [|done]. exists (Z.max 0 (k - 1)).
      split; [lia|]. f_equal. lia.
  - by destruct (handleCellClick_frame catIndex clueIndex s) as (-> & _).
  - unfold initial_scores.
    repeat (apply map_Forall_insert_2; [by exists 0|]). apply map_Forall_empty.
  - destruct response as [pool|error]; [|done].
    rewrite setup_ids_Ok.
    match goal with |- context [setup_loop ?ids ?t] =>
      by destruct (setup_loop_frame ids t) as (_ & ->) end.
  - destruct (pending s); try done.
    rewrite setup_data_eq.
    match goal with |- context [setup_loop ?ids ?t] =>
      destruct (setup_loop_frame ids t) as (_ & ->) end.
    by destruct response.
Qed.

(** X8. In every state the page can reach, every score is a multiple of
    100: each of the three teams has [100 * k] points for some [k >= 0]. *)
Theorem scores_multiples_of_100 (s : State) :
  Reachable s →
  map_Forall (λ _, hundreds) (teamScores s) ∧
  (∀ team, team ∈ [1; 2; 3]%nat →
     ∃ k : Z, 0 ≤ k ∧ teamScores s !! team = Some (Num (100 * k))).
Proof.
  intros Hs.
  assert (Hall : map_Forall (λ _, hundreds) (teamScores s)).
  { induction Hs as [html|s e Hs IH He].
    - unfold page_load, ready, initial_scores. simpl.
      repeat (apply map_Forall_insert_2; [by exists 0|]). apply map_Forall_empty.
    - apply hundreds_step; [by apply Reachable_scores_inv|done..]. }
  split; [done|]. intros team Hteam.
  destruct (scores_inv_lookup s team (Reachable_scores_inv s Hs) Hteam) as (z & Hz & _).
  destruct (Hall team _ Hz) as (k & Hk & [= ->]). eauto.
Qed.

Lemma scores_multiples_of_100_witness :
  let s := run [ClickAdjust 3 (DString "add")] (page_load sample_page) in
  map_Forall (λ _, hundreds) (teamScores s) ∧
  (∀ team, team ∈ [1; 2; 3]%nat →
     ∃ k : Z, 0 ≤ k ∧ teamScores s !! team = Some (Num (100 * k))).
Proof.
  apply (scores_multiples_of_100 (run [ClickAdjust 3 (DString "add")] (page_load sample_page))).
  apply run_Reachable; [apply Reachable_load|]. vm_compute. reflexivity.
Defined.

(** X9. On a team with a non-negative integer score, an increase followed by
    a decrease restores the whole score mapping; a decrease followed by an
    increase gives [max 100 score], so a decrease at 0 is not undone (the
    floor has lost it). *)
Theorem increase_then_decrease (team : nat) (s : State) (z : Z) :
  teamScores s !! team = Some (Num z) →
  0 ≤ z →
  teamScores (adjustScore team (DString "subtract") (adjustScore team (DString "add") s))
    = teamScores s ∧
  teamScores (adjustScore team (DString "add") (adjustScore team (DString "subtract") s))
    = <[team := Num (Z.max 100 z)]> (teamScores s).
Proof.
  intros Hz Hpos. split.
  - rewrite teamScores_adjustScore_subtract, teamScores_adjustScore_add.
    rewrite lookup_insert_eq, Hz, insert_insert_eq. simpl.
    apply insert_id. rewrite Hz. do 2 f_equal. lia.
  - rewrite teamScores_adjustScore_add, teamScores_adjustScore_subtract.
    rewrite lookup_insert_eq, Hz, insert_insert_eq. simpl.
    do 2 f_equal. lia.
Qed.

Lemma increase_then_decrease_witness :
  let s := page_load sample_page in
  teamScores (adjustScore 1 (DString "subtract") (adjustScore 1 (DString "add") s))
    = teamScores s ∧
  teamScores (adjustScore 1 (DString "add") (adjustScore 1 (DString "subtract") s))
    = <[1%nat := Num (Z.max 100 0)]> (teamScores s).
Proof.
  apply (increase_then_decrease 1 (page_load sample_page) 0).
  - reflexivity.
  - lia.
Defined.

(** ** The final rankings *)

Lemma final_rankings_setup_loop (ids : list nat) (s : State) :
  final_rankings (page (setup_loop ids s)) = final_rankings (page s).
Proof.
  destruct ids as [|id rest]; unfold setup_loop; [|done].
  unfold setup_finish, dispatch, createGameBoard, bind, modify, throw. simpl.
  by destruct (header_titles (gameCategories s)).
Qed.

(** X10. The final rankings are a snapshot: [completeGame] alone writes
    them, every other event leaves them as they are (a new game included).
    [completeGame] itself changes nothing but the two panels and that list,
    and running it twice is running it once. *)
Theorem final_rankings_snapshot (s : State) :
  (∀ e, e ≠ ClickComplete →
     final_rankings (page (handle e s)) = final_rankings (page s)) ∧
  teamScores (completeGame s) = teamScores s ∧
  gameCategories (completeGame s) = gameCategories s ∧
  console (completeGame s) = console s ∧
  pending (completeGame s) = pending s ∧
  with_final_rankings (final_rankings (page s)) (page (completeGame s))
    = with_panels (λ p, show_rankings true (show_board false p)) (page s) ∧
  completeGame (completeGame s) = completeGame s.
Proof.
  split_and!; try reflexivity.
  intros e He. destruct e; cbn [handle]; try done.
  - unfold adjustScore.
    repeat case_decide;
      match goal with |- context [match ?o with Some _ => _ | None => _ end] =>
        destruct o end; reflexivity.
  - unfold dispatch, handleCellClick, bind, modify, ret, throw.
    destruct (gameCategories s !! catIndex) as [[cat|]|]; [|done..].
    destruct (clues cat !! clueIndex) as [clue|]; [|done].
    by destruct (showing clue).
  - destruct response as [pool|error]; [|done].
    by rewrite setup_ids_Ok, final_rankings_setup_loop.
  - destruct (pending s); try done.
    rewrite setup_data_eq, final_rankings_setup_loop. by destruct response.
Qed.

(** ** The scoreboard on the page *)

Lemma synced_ext (s s' : State) :
  teamScores s' = teamScores s →
  rankings (page s') = rankings (page s) →
  winning_team_heading (page s') = winning_team_heading (page s) →
  score_text (page s') = score_text (page s) →
  synced s → synced s'.
Proof. unfold synced. intros -> -> -> ->. done. Qed.

Lemma synced_setup_begin (s : State) : synced (setup_begin s).
Proof.
  unfold synced. split_and!; [reflexivity..|].
  intros team n txt. unfold setup_begin. simpl. rewrite lookup_fmap.
  destruct (score_text (page s) !! team); simpl; [|done].
  intros [= <-] Hn.
  assert (Hzero : map_Forall (λ _ n, n = Num 0) initial_scores).
  { unfold initial_scores.
    repeat (apply map_Forall_insert_2; [done|]). apply map_Forall_empty. }
  by rewrite (Hzero team n Hn).
Qed.

Lemma adjustScore_other (team other : nat) (adjust : JsData) (s : State) :
  other ≠ team →
  teamScores (adjustScore team adjust s) !! other = teamScores s !! other.
Proof.
  intros Hne. rewrite teamScores_adjustScore.
  repeat case_decide; by rewrite ?lookup_insert_ne.
Qed.

Lemma score_text_adjustScore (team : nat) (adjust : JsData) (s : State) :
  score_text (page (adjustScore team adjust s)) =
    match teamScores (adjustScore team adjust s) !! team with
    | Some n => alter (λ _, js_show n) team (score_text (page s))
    | None => score_text (page s)
    end.
Proof.
  unfold adjustScore. rewrite teamScores_updateLeaderboard.
  repeat case_decide;
    match goal with |- context [match ?o with Some _ => _ | None => _ end] =>
      destruct o eqn:Ho end; simpl in *; rewrite ?Ho; reflexivity.
Qed.

Lemma synced_adjustScore (team : nat) (adjust : JsData) (s : State) :
  synced s → synced (adjustScore team adjust s).
Proof.
  intros (_ & _ & Htext). unfold synced. split_and!; [reflexivity..|].
  intros t n txt. rewrite score_text_adjustScore.
  destruct (decide (t = team)) as [->|Hne].
  - intros Htxt Hn. rewrite Hn in Htxt. rewrite lookup_alter_eq in Htxt.
    destruct (score_text (page s) !! team); simpl in Htxt; congruence.
  - rewrite (adjustScore_other team t) by done. intros Htxt Hn.
    apply (Htext t n txt); [|done].
    destruct (teamScores (adjustScore team adjust s) !! team); [|done].
    by rewrite lookup_alter_ne in Htxt.
Qed.

Lemma setup_loop_scoreboard (ids : list nat) (s : State) :
  teamScores (setup_loop ids s) = teamScores s ∧
  rankings (page (setup_loop ids s)) = rankings (page s) ∧
  winning_team_heading (page (setup_loop ids s)) = winning_team_heading (page s) ∧
  score_text (page (setup_loop ids s)) = score_text (page s).
Proof.
  destruct ids as [|id rest]; unfold setup_loop; [|done].
  unfold setup_finish, dispatch, createGameBoard, bind, modify, throw. simpl.
  by destruct (header_titles (gameCategories s)).
Qed.

Lemma handleCellClick_scoreboard (catIndex clueIndex : nat) (s : State) :
  rankings (page (dispatch (handleCellClick catIndex clueIndex) s)) = rankings (page s) ∧
  winning_team_heading (page (dispatch (handleCellClick catIndex clueIndex) s))
    = winning_team_heading (page s) ∧
  score_text (page (dispatch (handleCellClick catIndex clueIndex) s)) = score_text (page s).
Proof.
  unfold dispatch, handleCellClick, bind, modify, throw, ret.
  destruct (gameCategories s !! catIndex) as [[cat|]|]; [|done..].
  destruct (clues cat !! clueIndex) as [clue|]; [|done].
  by destruct (showing clue).
Qed.

Lemma synced_setup_loop (ids : list nat) (s s0 : State) :
  teamScores s = teamScores s0 → page s = page s0 →
  synced s0 → synced (setup_loop ids s).
Proof.
  intros Ht Hp Hs.
  destruct (setup_loop_scoreboard ids s) as (H1 & H2 & H3 & H4).
  apply (synced_ext s0); rewrite ?H1, ?H2, ?H3, ?H4, ?Hp; done.
Qed.

Lemma display_inv_step (s : State) (e : Event) :
  panel_inv s → display_inv s → enabled s e = true → display_inv (handle e s).
Proof.
  intros Hpanel Hinv He.
  pose proof (panel_inv_step s e Hpanel He) as Hpanel'.
  destruct e; cbn [handle enabled] in He, Hpanel' |- *.
  - unfold display_inv, panel_inv in *. split_state s; solve_panels.
  - unfold display_inv, panel_inv in *. split_state s; solve_panels.
  - assert (synced s) as Hs.
    { unfold display_inv, panel_inv in *. destruct (pending s);
        [by apply Hinv; rewrite He|split_state s; solve_panels..]. }
    unfold display_inv. change (pending (completeGame s)) with (pending s).
    destruct (pending s); intros; by apply (synced_ext s).
  - unfold display_inv, panel_inv in *. split_state s; solve_panels.
  - unfold display_inv in *.
    destruct (adjustScore_frame team adjust s) as (_ & -> & _ & -> & _).
    destruct (pending s); auto using synced_adjustScore.
  - unfold display_inv in *.
    destruct (handleCellClick_frame catIndex clueIndex s) as (Ht & -> & ->).
    destruct (handleCellClick_scoreboard catIndex clueIndex s) as (H1 & H2 & H3).
    destruct (pending s); intros; apply (synced_ext s); auto.
  - unfold display_inv. apply synced_setup_begin.
  - unfold display_inv in Hinv. unfold panel_inv in Hpanel.
    destruct (pending s) eqn:Hp; try discriminate.
    destruct response as [pool|error].
    + rewrite setup_ids_Ok.
      assert (synced (setup_loop (sampleSize (info_id <$> pool) CATEGORY_TOTAL rng)
                        (with_gameCategories (λ _, []) s))) as Hs
        by (by apply (synced_setup_loop _ _ s)).
      revert Hs. generalize (setup_loop (sampleSize (info_id <$> pool) CATEGORY_TOTAL rng)
                               (with_gameCategories (λ _, []) s)).
      intros t Hs. unfold display_inv. destruct (pending t); auto.
    + rewrite setup_ids_Failed. unfold display_inv. simpl.
      revert Hpanel. generalize (panels (page s)). intros [[] [] [] []]; simpl; done.
  - unfold display_inv in Hinv.
    destruct (pending s) eqn:Hp; try discriminate.
    rewrite setup_data_eq.
    match goal with |- display_inv ?t =>
      assert (synced t) as Hs
        by (apply (synced_setup_loop _ _ s); [by destruct response..|done]);
      revert Hs; generalize t end.
    intros t Hs. unfold display_inv. destruct (pending t); auto.
Qed.

Lemma Reachable_display_inv (s : State) : Reachable s → display_inv s.
Proof.
  induction 1 as [html|s e Hs IH He].
  - unfold display_inv. simpl. done.
  - apply display_inv_step; [by apply Reachable_panel_inv|done..].
Qed.

(** X11. Whenever the board or the final rankings are shown, and while a
    setup waits for the remote service, the page shows the scores the script
    holds: the leaderboard lists the teams ranked by the current scores, the
    winning label names the first of them, and each team's score text is its
    current score.  Right after the timer callback they read three teams at
    0 with team 1 winning. *)
Theorem scoreboard_in_sync (s : State) :
  Reachable s →
  awaiting s || game_board_screen (panels (page s)) || rankings_div (panels (page s)) = true →
  rankings (page s) = leaderboard_line (teamScores s) <$> sortedTeams (teamScores s) ∧
  winning_team_heading (page s) = winning_label (sortedTeams (teamScores s)) ∧
  (∀ team n txt,
     score_text (page s) !! team = Some txt → teamScores s !! team = Some n →
     txt = js_show n) ∧
  (∀ s0, rankings (page (handle TimerFires s0)) = ["Team 1: 0"; "Team 2: 0"; "Team 3: 0"] ∧
         winning_team_heading (page (handle TimerFires s0)) = "Winning Team: Team 1").
Proof.
  intros Hs%Reachable_display_inv Hvis.
  assert (synced s) as (H1 & H2 & H3).
  { unfold display_inv, awaiting in *. destruct (pending s); auto. }
  split_and!; done.
Qed.

Lemma scoreboard_in_sync_witness :
  let s := run (sample_game ++ [ClickAdjust 3 (DString "add"); ClickComplete])
             (page_load sample_page) in
  rankings (page s) = leaderboard_line (teamScores s) <$> sortedTeams (teamScores s) ∧
  winning_team_heading (page s) = winning_label (sortedTeams (teamScores s)) ∧
  (∀ team n txt,
     score_text (page s) !! team = Some txt → teamScores s !! team = Some n →
     txt = js_show n) ∧
  (∀ s0, rankings (page (handle TimerFires s0)) = ["Team 1: 0"; "Team 2: 0"; "Team 3: 0"] ∧
         winning_team_heading (page (handle TimerFires s0)) = "Winning Team: Team 1").
Proof.
  apply (scoreboard_in_sync
           (run (sample_game ++ [ClickAdjust 3 (DString "add"); ClickComplete])
              (page_load sample_page))).
  - apply run_Reachable; [apply Reachable_load|]. vm_compute. reflexivity.
  - vm_compute. reflexivity.
Defined.

(** ** While the setup runs *)

(** X12. While the setup waits for the remote service, the table is empty
    and the loading panel is the only panel shown: no clue cell and no
    lifecycle button can be clicked, the setup cannot be cancelled; only the
    awaited response and score adjustments can happen. *)
Theorem nothing_to_click_while_fetching (s : State) :
  Reachable s →
  awaiting s = true →
  tbody (page s) = [] ∧
  visible_panels (panels (page s)) = [LoadingPanel] ∧
  (∀ catIndex clueIndex, enabled s (ClickCell catIndex clueIndex) = false) ∧
  (∀ e, enabled s e = true → is_response e = true ∨ ∃ team adjust, e = ClickAdjust team adjust).
Proof.
  intros Hs Hawait.
  pose proof (Reachable_panel_inv s Hs) as Hpanel.
  pose proof (Reachable_board_inv s Hs) as [_ Hload].
  unfold awaiting, panel_inv in *.
  assert (Htbody : tbody (page s) = []).
  { destruct (pending s); try discriminate; [done|by destruct Hload]. }
  assert (Hvis : visible_panels (panels (page s)) = [LoadingPanel]).
  { by destruct (pending s). }
  split_and!; [done|done| |].
  - intros catIndex clueIndex. cbn [enabled].
    rewrite (cell_text_empty _ _ _ Htbody). apply andb_false_r.
  - intros e He. destruct e; cbn [enabled is_response] in *; eauto;
      revert He Hvis; generalize (panels (page s));
      intros [[] [] [] []]; simpl; try done;
      destruct (pending s); done.
Qed.

Lemma nothing_to_click_while_fetching_witness :
  let s := run (take 4 sample_game) (page_load sample_page) in
  tbody (page s) = [] ∧
  visible_panels (panels (page s)) = [LoadingPanel] ∧
  (∀ catIndex clueIndex, enabled s (ClickCell catIndex clueIndex) = false) ∧
  (∀ e, enabled s e = true → is_response e = true ∨ ∃ team adjust, e = ClickAdjust team adjust).
Proof.
  apply (nothing_to_click_while_fetching (run (take 4 sample_game) (page_load sample_page))).
  - apply run_Reachable; [apply Reachable_load|]. vm_compute. reflexivity.
  - vm_compute. reflexivity.
Defined.

Lemma stuck_step (s : State) (e : Event) :
  stuck s → enabled s e = true →
  (∃ team adjust, e = ClickAdjust team adjust) ∧ stuck (handle e s).
Proof.
  intros (Hp & Hvis & Hcats) He.
  destruct e; cbn [enabled handle] in *;
    try (rewrite Hp in He; discriminate);
    try (exfalso; revert He Hvis; generalize (panels (page s));
         intros [[] [] [] []]; simpl; done).
  split; [eauto|]. unfold stuck.
  by destruct (adjustScore_frame team adjust s) as (-> & -> & _ & -> & _).
Qed.

(** X13. A failed fetch of the identifiers ends the game on the loading
    panel: the setup throws on iterating [undefined] before it reaches
    [removeLoading], so the loading panel stays the only panel shown, with
    an empty category list, whatever the user does next; nothing but score
    adjustments can follow. *)
Theorem failed_ids_stay_on_loading (s : State) (error : Error) (rng : nat → nat)
    (events : list Event) :
  Reachable s →
  enabled s (IdsResponse (Failed error) rng) = true →
  run_enabled events (handle (IdsResponse (Failed error) rng) s) = true →
  let s' := run events (handle (IdsResponse (Failed error) rng) s) in
  visible_panels (panels (page s')) = [LoadingPanel] ∧
  gameCategories s' = [] ∧
  pending s' = Idle ∧
  Forall (λ e, ∃ team adjust, e = ClickAdjust team adjust) events ∧
  console (handle (IdsResponse (Failed error) rng) s) =
    console s ++ [ConsoleError "Failed to fetch category IDs:" error;
                  Uncaught (TypeError "categoryIds is not iterable")].
Proof.
  intros Hs He Hrun. cbv zeta.
  assert (Hstuck : stuck (handle (IdsResponse (Failed error) rng) s)).
  { pose proof (Reachable_panel_inv s Hs) as Hpanel. unfold panel_inv in Hpanel.
    cbn [enabled] in He. cbn [handle]. rewrite setup_ids_Failed.
    unfold stuck. simpl. destruct (pending s); try discriminate. done. }
  assert (Hconsole : console (handle (IdsResponse (Failed error) rng) s) =
            console s ++ [ConsoleError "Failed to fetch category IDs:" error;
                          Uncaught (TypeError "categoryIds is not iterable")]).
  { cbn [handle]. rewrite setup_ids_Failed. simpl. by rewrite <-app_assoc. }
  revert Hstuck Hrun. generalize (handle (IdsResponse (Failed error) rng) s) at 1 2 3 4 5.
  intros t Hstuck Hrun.
  assert (stuck (run events t) ∧
          Forall (λ e, ∃ team adjust, e = ClickAdjust team adjust) events) as [Hend Hall].
  { revert t Hstuck Hrun. induction events as [|e events IH]; intros t Hstuck Hrun.
    - done.
    - unfold run_enabled in Hrun. simpl in Hrun.
      apply andb_true_iff in Hrun as [He' Hrun].
      destruct (stuck_step t e Hstuck He') as [Hadj Hstuck'].
      destruct (IH (handle e t) Hstuck' Hrun) as [Hend Hall].
      split; [done|by constructor]. }
  destruct Hend as (Hp & Hvis & Hcats). done.
Qed.

Lemma failed_ids_stay_on_loading_witness :
  let s := run [ClickStart; TimerFires] (page_load sample_page) in
  let error := NetworkError "offline" in
  let events := [ClickAdjust 1 (DString "add"); ClickAdjust 2 (DString "subtract")] in
  let s' := run events (handle (IdsResponse (Failed error) sample_rng) s) in
  visible_panels (panels (page s')) = [LoadingPanel] ∧
  gameCategories s' = [] ∧
  pending s' = Idle ∧
  Forall (λ e, ∃ team adjust, e = ClickAdjust team adjust) events ∧
  console (handle (IdsResponse (Failed error) sample_rng) s) =
    console s ++ [ConsoleError "Failed to fetch category IDs:" error;
                  Uncaught (TypeError "categoryIds is not iterable")].
Proof.
  apply (failed_ids_stay_on_loading (run [ClickStart; TimerFires] (page_load sample_page))
           (NetworkError "offline") sample_rng
           [ClickAdjust 1 (DString "add"); ClickAdjust 2 (DString "subtract")]).
  - apply run_Reachable; [apply Reachable_load|]. vm_compute. reflexivity.
  - vm_compute. reflexivity.
  - vm_compute. reflexivity.
Defined.

(** ** Every clue is on the board *)

Lemma length_fetched_clues (response : Response ApiCategory) (rng : nat → nat)
    (cat : Category) :
  fetched_category response rng = Some cat →
  (length (clues cat) ≤ CLUES_PER_CATEGORY)%nat.
Proof.
  destruct response as [data|error]; [|done]. intros [= <-]. simpl.
  rewrite length_fmap, length_sampleSize. unfold CLUES_PER_CATEGORY. lia.
Qed.

Lemma gameCategories_click (s : State) (catIndex clueIndex catIndex' : nat)
    (cat' : Category) :
  gameCategories (handle (ClickCell catIndex clueIndex) s) !! catIndex' = Some (Some cat') →
  ∃ cat, gameCategories s !! catIndex' = Some (Some cat) ∧
         length (clues cat') = length (clues cat).
Proof.
  cbn [handle].
  destruct (clue_at s catIndex clueIndex) as [clue|] eqn:Hclue.
  - rewrite (handleCellClick_clue s catIndex clueIndex clue Hclue).
    assert (Hset : ∀ c,
      set_clue catIndex clueIndex c (gameCategories s) !! catIndex' = Some (Some cat') →
      ∃ cat, gameCategories s !! catIndex' = Some (Some cat) ∧
             length (clues cat') = length (clues cat)).
    { intros c. unfold set_clue.
      destruct (gameCategories s !! catIndex) as [[cat|]|] eqn:Hcat; eauto.
      destruct (decide (catIndex = catIndex')) as [<-|Hne].
      - rewrite list_lookup_insert_eq by (by eapply lookup_lt_Some).
        intros [= <-]. exists cat. split; [done|]. simpl. apply length_insert.
      - rewrite list_lookup_insert_ne by done. eauto. }
    destruct (showing clue); simpl; eauto.
  - destruct (handleCellClick_no_clue s catIndex clueIndex Hclue) as [-> _]. eauto.
Qed.

Lemma clues_bounded_step (s : State) (e : Event) :
  clues_bounded s → clues_bounded (handle e s).
Proof.
  intros Hb. destruct e; cbn [handle]; try done.
  - unfold clues_bounded. by destruct (adjustScore_frame team adjust s) as (-> & _).
  - intros c cat' Hcat'.
    destruct (gameCategories_click s catIndex clueIndex c cat' Hcat') as (cat & Hcat & ->).
    by eapply Hb.
  - intros c cat. by rewrite gameCategories_setup_ids.
  - destruct (pending s) as [| | |id rest]; try done.
    rewrite setup_data_eq. intros c cat.
    match goal with |- context [setup_loop ?ids ?t] =>
      destruct (setup_loop_frame ids t) as (-> & _) end.
    assert (gameCategories (fetch_log "Failed to fetch category data:" response s)
            = gameCategories s) as Hsame by (by destruct response).
    simpl. rewrite Hsame. intros Hcat.
    apply lookup_app_Some in Hcat as [Hcat|[_ Hcat]]; [by eapply Hb|].
    apply list_lookup_singleton_Some in Hcat as [_ Hcat].
    by eapply length_fetched_clues.
Qed.

Lemma covered_new_board (s : State) :
  clues_bounded s → covered (setup_finish s).
Proof.
  intros Hb Htbody catIndex clueIndex clue Hclue.
  destruct (setup_finish_frame s) as (Hcats & _ & _ & _ & Ht).
  rewrite tbody_createGameBoard in Ht.
  unfold clue_at in Hclue. rewrite Hcats in Hclue.
  unfold cell_text. rewrite Ht. rewrite Ht in Htbody.
  destruct (header_titles (gameCategories s)); [|done].
  destruct (gameCategories s !! catIndex) as [[cat|]|] eqn:Hcat; try done.
  simpl in Hclue. apply lookup_lt_Some in Hclue.
  pose proof (Hb catIndex cat Hcat) as Hlen.
  rewrite list_lookup_fmap, lookup_seq_lt by lia. simpl.
  rewrite list_lookup_fmap, Hcat. by eexists.
Qed.

Lemma covered_click (s : State) (catIndex clueIndex : nat) :
  covered s → covered (handle (ClickCell catIndex clueIndex) s).
Proof.
  intros Hcov Htbody c i clue' Hclue'.
  assert (Hsame : clue_at s catIndex clueIndex = None →
                  gameCategories (handle (ClickCell catIndex clueIndex) s) = gameCategories s ∧
                  page (handle (ClickCell catIndex clueIndex) s) = page s)
    by apply handleCellClick_no_clue.
  destruct (clue_at s catIndex clueIndex) as [clue|] eqn:Hclue; cycle 1.
  { destruct (Hsame eq_refl) as [Hc Hp]. rewrite Hp in *.
    apply (Hcov Htbody c i clue'). unfold clue_at in *. by rewrite <-Hc. }
  assert (Htb : tbody (page s) ≠ []).
  { intros Hnil. apply Htbody. cbn [handle].
    rewrite (handleCellClick_clue s catIndex clueIndex clue Hclue).
    destruct (showing clue); simpl; by rewrite ?Hnil. }
  destruct (decide ((catIndex, clueIndex) = (c, i))) as [[= <- <-]|Hne].
  - destruct (Hcov Htb _ _ _ Hclue) as [txt Htxt].
    cbn [handle]. rewrite (handleCellClick_clue s catIndex clueIndex clue Hclue).
    destruct (showing clue); simpl;
      rewrite ?cell_text_set_eq by (by rewrite Htxt); by eexists.
  - destruct (click_elsewhere s catIndex clueIndex c i Hne) as [Hc Ht].
    rewrite Ht. rewrite Hc in Hclue'. by apply (Hcov Htb c i clue').
Qed.

Lemma covered_step (s : State) (e : Event) :
  board_inv s → clues_bounded s → covered s → enabled s e = true →
  covered (handle e s).
Proof.
  intros [_ Hload] Hb Hcov He. destruct e; cbn [handle enabled] in He |- *; try done.
  - destruct (adjustScore_frame team adjust s) as (Hc & _ & _ & _ & _ & Ht).
    unfold covered, clue_at, cell_text. rewrite Hc, Ht. exact Hcov.
  - by apply covered_click.
  - intros Htbody. by destruct Htbody.
  - unfold covered, clue_at. rewrite gameCategories_setup_ids. done.
  - destruct (pending s) as [| | |id rest] eqn:Hp; try done.
    destruct Hload as [Htbody _].
    pose proof (clues_bounded_step s (DataResponse response rng) Hb) as Hb'.
    cbn [handle] in Hb'. rewrite Hp in Hb'. rewrite setup_data_eq in *.
    destruct rest as [|id' rest']; unfold setup_loop in *.
    + apply covered_new_board. intros c cat Hcat. apply (Hb' c cat).
      by destruct (setup_finish_frame
                     (with_gameCategories (λ cats, cats ++ [fetched_category response rng])
                        (fetch_log "Failed to fetch category data:" response s)))
        as (-> & _).
    + intros Hne. exfalso. apply Hne. by destruct response.
Qed.

(** X14. In every state the page can reach, no category holds more than 5
    clues, and unless the table is empty every clue of the game has its cell
    in the table: each clue of a game on the board can be revealed by a
    click. *)
Theorem every_clue_has_its_cell (s : State) :
  Reachable s →
  (∀ catIndex cat, gameCategories s !! catIndex = Some (Some cat) →
     (length (clues cat) ≤ CLUES_PER_CATEGORY)%nat) ∧
  (tbody (page s) ≠ [] →
   ∀ catIndex clueIndex clue,
     clue_at s catIndex clueIndex = Some clue →
     is_Some (cell_text (page s) catIndex clueIndex)).
Proof.
  intros Hs.
  assert (clues_bounded s ∧ covered s) as [Hb Hcov]; [|done].
  induction Hs as [html|s e Hs [Hb Hcov] He].
  - split; [by intros c cat|]. intros _ c i clue. unfold clue_at. simpl. done.
  - split; [by apply clues_bounded_step|].
    apply covered_step; [by apply Reachable_board_inv|done..].
Qed.

Lemma every_clue_has_its_cell_witness :
  let s := run short_game (page_load sample_page) in
  (∀ catIndex cat, gameCategories s !! catIndex = Some (Some cat) →
     (length (clues cat) ≤ CLUES_PER_CATEGORY)%nat) ∧
  (tbody (page s) ≠ [] →
   ∀ catIndex clueIndex clue,
     clue_at s catIndex clueIndex = Some clue →
     is_Some (cell_text (page s) catIndex clueIndex)).
Proof.
  apply (every_clue_has_its_cell (run short_game (page_load sample_page))).
  apply run_Reachable; [apply Reachable_load|]. vm_compute. reflexivity.
Defined.

(** ** A setup whose fetches all succeed *)

Lemma setup_finish_with_pending (p : Pending) (s : State) :
  setup_finish (with_pending p s) = setup_finish s.
Proof.
  unfold setup_finish, dispatch, createGameBoard, bind, modify, throw. simpl.
  by destruct (header_titles (gameCategories s)).
Qed.

Lemma setup_resume_served (data : nat → ApiCategory) (draws : nat → nat → nat)
    (ids : list nat) :
  ∀ (fuel : nat) (s : State),
    (length ids ≤ fuel)%nat →
    setup_resume (λ id, (Ok (data id), draws id)) fuel (setup_loop ids s)
      = setup_finish
          (with_gameCategories (λ cats, cats ++ (Some ∘ served data draws <$> ids)) s).
Proof.
  induction ids as [|id rest IH]; intros fuel s Hfuel.
  - unfold setup_loop. rewrite setup_resume_Idle by reflexivity.
    unfold with_gameCategories. simpl. rewrite app_nil_r. by destruct s.
  - destruct fuel as [|fuel]; [simpl in Hfuel; lia|].
    cbn [setup_loop setup_resume]. cbn [pending with_pending fst snd].
    rewrite setup_data_eq, IH by (simpl in Hfuel; lia).
    rewrite <-(setup_finish_with_pending (AwaitData id rest)
                 (with_gameCategories _ s)).
    f_equal. unfold with_gameCategories, with_pending. simpl.
    by rewrite <-app_assoc.
Qed.

(** X15. A game start or restart whose fetches all succeed ends on the
    board: the category list holds the categories of the sampled
    identifiers in the order drawn, the header reads ["Value"] and their
    titles, the body has five rows labelled 100 to 500 with one ["?"] per
    category, the board panel is shown, the loading panel hidden, and
    nothing is written to the console. *)
Theorem successful_new_game (restart : bool) (pool : list ApiCategoryInfo)
    (rng : nat → nat) (data : nat → ApiCategory) (draws : nat → nat → nat) (s : State) :
  let ids := sampleSize (info_id <$> pool) CATEGORY_TOTAL rng in
  let cats := served data draws <$> ids in
  let s' := new_game restart (Ok pool, rng) (λ id, (Ok (data id), draws id)) s in
  gameCategories s' = Some <$> cats ∧
  length cats = (CATEGORY_TOTAL `min` length pool)%nat ∧
  thead (page s') = ["Value" :: (title <$> cats)] ∧
  tbody (page s') =
    (λ i, {| row_value := pretty ((i + 1) * 100)%nat;
             row_cells := replicate (length cats) "?" |}) <$> seq 0 CLUES_PER_CATEGORY ∧
  game_board_screen (panels (page s')) = true ∧
  loading_screen (panels (page s')) = false ∧
  game_elements (page s') = true ∧
  console s' = console s.
Proof.
  cbv zeta. unfold new_game, setupAndStartGame. cbn [fst snd].
  rewrite setup_ids_Ok, setup_resume_served by (rewrite length_sampleSize; lia).
  set (ids := sampleSize (info_id <$> pool) CATEGORY_TOTAL rng).
  set (t := with_gameCategories _ _).
  assert (Hcats : gameCategories t = Some <$> (served data draws <$> ids)).
  { unfold t. simpl. by rewrite list_fmap_compose. }
  assert (Hconsole : console t = console s) by (by destruct restart).
  assert (Htitles : header_titles (gameCategories t)
                    = Some (title <$> (served data draws <$> ids)))
    by (by rewrite Hcats, header_titles_Some).
  clearbody t.
  unfold setup_finish. rewrite (createGameBoard_Some t _ Htitles).
  cbn -[seq board_row CLUES_PER_CATEGORY]. rewrite Hcats.
  split_and!; try done.
  - unfold ids. by rewrite length_fmap, length_sampleSize, length_fmap.
  - apply list_fmap_ext. intros _ i _. unfold board_row. f_equal.
    rewrite (const_fmap _ _ "?") by done. f_equal. apply length_fmap.
Qed.

(** ** The winning team *)

(** X16. The team the winning label names has the highest score, and among
    the teams with that score the smallest identifier; the leaderboard has
    one line per team. *)
Theorem winner_has_top_score (scores : gmap nat JsNum) (winner : nat) :
  all_numeric scores →
  head (sortedTeams scores) = Some winner →
  winning_label (sortedTeams scores) = "Winning Team: Team " +:+ pretty winner ∧
  length (leaderboard_line scores <$> sortedTeams scores) = size scores ∧
  ∃ top, scores !! winner = Some (Num top) ∧
    ∀ team z, scores !! team = Some (Num z) →
      z ≤ top ∧ (z = top → (winner ≤ team)%nat).
Proof.
  intros Hnum Hhead.
  pose proof (sortedTeams_ranked scores Hnum) as Hsorted.
  pose proof (sortedTeams_Permutation scores) as Hperm.
  split_and!.
  - unfold winning_label. by rewrite Hhead.
  - rewrite length_fmap, Hperm. unfold Object_keys.
    by rewrite merge_sort_Permutation, <-size_dom.
  - destruct (sortedTeams scores) as [|w rest] eqn:Hst; [done|].
    injection Hhead as ->.
    assert (is_Some (scores !! winner)) as [n Hn].
    { apply elem_of_Object_keys. rewrite <-Hperm. by left. }
    pose proof (Hnum winner n Hn) as Hn'. destruct n as [top|]; [|done].
    exists top. split; [done|]. intros team z Hz.
    assert (team ∈ winner :: rest) as Hin.
    { rewrite Hperm. apply elem_of_Object_keys. by rewrite Hz. }
    apply StronglySorted_cons in Hsorted as [Hfirst _].
    apply elem_of_cons in Hin as [->|Hin].
    + rewrite Hn in Hz. injection Hz as ->. lia.
    + rewrite Forall_forall in Hfirst. specialize (Hfirst team Hin).
      apply (ranks_before_Num scores winner team top z) in Hfirst; [|done..]. lia.
Qed.

Lemma winner_has_top_score_witness :
  winning_label (sortedTeams example_scores) = "Winning Team: Team " +:+ pretty 1%nat ∧
  length (leaderboard_line example_scores <$> sortedTeams example_scores)
    = size example_scores ∧
  ∃ top, example_scores !! 1%nat = Some (Num top) ∧
    ∀ team z, example_scores !! team = Some (Num z) →
      z ≤ top ∧ (z = top → (1 ≤ team)%nat).
Proof.
  apply (winner_has_top_score example_scores 1).
  - apply (bool_decide_unpack _). vm_compute. exact I.
  - vm_compute. reflexivity.
Defined.
